(** * Status history: filter validation, sliding-window push, log squashing

    A shallow embedding of [status/status_history.go] (package [status]).
    Go slices are lists, [map]s are [gmap]s, the machine type [int] is [Z]
    with its 64-bit two's-complement wrap-around written out, and a run-time
    panic is an explicit outcome of the computation. *)

From Stdlib Require Import ZArith DecimalString.
From stdpp Require Import gmap strings list fin_maps.

Local Open Scope string_scope.
Local Open Scope list_scope.

(** ** Outcomes of Go computations *)

(** A Go call either returns, panics (index or slice bounds out of range),
    or is still running when the fuel of the model is used up. *)
Inductive exec (A : Type) : Type :=
| Done (a : A)
| Panic
| OutOfFuel.

Arguments Done {A} a.
Arguments Panic {A}.
Arguments OutOfFuel {A}.

#[global] Instance exec_ret : MRet exec := fun A a => Done a.

#[global] Instance exec_bind : MBind exec := fun A B k m =>
  match m with
  | Done a => k a
  | Panic => Panic
  | OutOfFuel => OutOfFuel
  end.

(** ** Machine integers *)

Module Int.

Definition min_int : Z := - 2 ^ 63.
Definition max_int : Z := 2 ^ 63 - 1.

(** Two's-complement wrap-around of the 64-bit [int]. *)
Definition wrap (z : Z) : Z := ((z + 2 ^ 63) mod 2 ^ 64 - 2 ^ 63)%Z.

Definition add (a b : Z) : Z := wrap (a + b).

Definition in_range (z : Z) : Prop := (min_int <= z <= max_int)%Z.

End Int.

(** [len(s)] as an [int]. *)
Definition len {A : Type} (s : list A) : Z := Z.of_nat (length s).

(** The history of one entity is a slice of [DetailedStatus] values of at
    least eight machine words each, so its length stays far below [2^62]
    on a 64-bit address space. *)
Definition max_len : Z := 2 ^ 62.

(** ** Slices *)

(** [s[i]] with a [nat] index: panics when out of range. *)
Definition index {A : Type} (s : list A) (i : nat) : exec A :=
  match s !! i with
  | Some x => Done x
  | None => Panic
  end.

(** [s[i]] with an [int] index. *)
Definition indexZ {A : Type} (s : list A) (i : Z) : exec A :=
  if (i <? 0)%Z then Panic else index s (Z.to_nat i).

(** [s[i] = x]: panics when out of range. *)
Definition store {A : Type} (s : list A) (i : nat) (x : A) : exec (list A) :=
  if decide (i < length s)%nat then Done (<[i:=x]> s) else Panic.

(** [s[lo:hi]]: panics unless [0 <= lo <= hi <= len(s)]. *)
Definition slice {A : Type} (s : list A) (lo hi : Z) : exec (list A) :=
  if ((0 <=? lo) && (lo <=? hi) && (hi <=? len s))%Z
  then Done (take (Z.to_nat (hi - lo)) (drop (Z.to_nat lo) s))
  else Panic.

(** [s[lo:]]. *)
Definition slice_from {A : Type} (s : list A) (lo : Z) : exec (list A) :=
  slice s lo (len s).

(** ** Data model *)

(** [type Status string]; the type and its constants are declared in
    [status.go]. *)
Definition StatusName : Type := string.

(** Modelled from the spec: the constant [Idle] of [status.go], which is not
    among the sources; the marker's status is the idle state, whose value
    is the string "idle". *)
Definition Idle : StatusName := "idle".

Definition Time : Type := Z.
Definition Duration : Type := Z.

(** Values stored under [interface{}]. *)
Inductive iface : Type :=
| IString (s : string)
| IInt (z : Z)
| IBool (b : bool).

Abbreviation HistoryKind := string (only parsing).

Record DetailedStatus : Type := {
  Status : StatusName;
  Info : string;
  Data : gmap string iface;
  Since : option Time;
  Kind : HistoryKind;
  Version : string;
  Life : string;
  Err : option string
}.

Abbreviation History := (list DetailedStatus).

Record StatusHistoryFilter : Type := {
  Size : Z;
  FromDate : option Time;
  Delta : option Duration;
  Exclude : gset string
}.

(** ** Validate *)

(** The error built by [errors.NotValidf]. *)
Inductive error : Type :=
| NotValid (msg : string).

Definition NotValidf (msg : string) : error := NotValid msg.

Definition non_nil {A : Type} (p : option A) : bool :=
  match p with
  | Some _ => true
  | None => false
  end.

(** [nil] is [None]. *)
Definition Validate (f : StatusHistoryFilter) : option error :=
  let s := (0 <? Size f)%Z in
  let t := non_nil (FromDate f) in
  let d := non_nil (Delta f) in
  if negb (s || t || d) then Some (NotValidf "missing filter parameters")
  else if s && t then Some (NotValidf "Size and Date together")
  else if s && d then Some (NotValidf "Size and Delta together")
  else if t && d then Some (NotValidf "Date and Delta together")
  else None.

(** ** HistoryKind *)

Definition KindUnit : HistoryKind := "unit".
Definition KindUnitAgent : HistoryKind := "juju-unit".
Definition KindWorkload : HistoryKind := "workload".
Definition KindMachineInstance : HistoryKind := "machine".
Definition KindMachine : HistoryKind := "juju-machine".
Definition KindContainerInstance : HistoryKind := "container".
Definition KindContainer : HistoryKind := "juju-container".

Definition Valid (k : HistoryKind) : bool :=
  if String.eqb k KindUnit || String.eqb k KindUnitAgent
     || String.eqb k KindWorkload
     || String.eqb k KindMachineInstance || String.eqb k KindMachine
     || String.eqb k KindContainerInstance || String.eqb k KindContainer
  then true
  else false.

Definition AllHistoryKind : gmap HistoryKind string :=
  <[KindUnit := "statuses for specified unit and its workload"]>
  (<[KindUnitAgent := "statuses from the agent that is managing a unit"]>
  (<[KindWorkload := "statuses for unit's workload"]>
  (<[KindMachineInstance := "statuses that occur due to provisioning of a machine"]>
  (<[KindMachine := "status of the agent that is managing a machine"]>
  (<[KindContainerInstance := "statuses from the agent that is managing containers"]>
  (<[KindContainer := "statuses from the containers only and not their host machines"]>
   ∅)))))).

(** ** push *)

(** [for i := 0; i < len(ch)-1; i++ { ch[i] = ch[i+1] }], with [n]
    iterations left. *)
Fixpoint push_shift (n i : nat) (ch : History) : exec History :=
  match n with
  | O => Done ch
  | S n' =>
      x ← index ch (i + 1);
      ch' ← store ch i x;
      push_shift n' (S i) ch'
  end.

(** The receiver's array is updated in place: the second component is the
    window after the call. *)
Definition push (h : History) (new : DetailedStatus)
  : exec (DetailedStatus * History) :=
  let ch := h in
  old ← index ch 0;
  ch ← push_shift (length ch - 1) 0 ch;
  ch ← store ch (length ch - 1) new;
  Done (old, ch).

(** ** SquashLogs *)

(** [%d] of [fmt.Sprintf]. *)
Definition fmt_d (z : Z) : string := NilZero.string_of_int (Z.to_int z).

(** [fmt.Sprintf("last %d statuses repeated %d times", cycleSize, repeat)]. *)
Definition Sprintf_repeated (cycleSize repeat : Z) : string :=
  "last " +:+ fmt_d cycleSize +:+ " statuses repeated " +:+ fmt_d repeat
  +:+ " times".

(** The variables of the walk that change from one iteration to the next. *)
Record walk : Type := {
  w_i : Z;
  w_repeat : Z;
  w_buffer : History;
  w_result : History;
  w_repeatStatus : DetailedStatus
}.

(** [for i := 0; i < cycleSize; i++ { buffer = append(buffer, statuses[i]) }],
    with [n] iterations left. *)
Fixpoint seed (n i : nat) (statuses buffer : History) : exec History :=
  match n with
  | O => Done buffer
  | S n' =>
      x ← index statuses i;
      seed n' (S i) statuses (buffer ++ [x])
  end.

(** [for j := range subset { if subset[j].Status != buffer[j].Status ||
    subset[j].Info != buffer[j].Info { repetition = false } }], with
    [subset[j:]] left to visit. *)
Fixpoint detect (j : nat) (rest buffer : History) (repetition : bool)
  : exec bool :=
  match rest with
  | [] => Done repetition
  | s :: rest' =>
      b ← index buffer j;
      let repetition :=
        if negb (String.eqb (Status s) (Status b))
           || negb (String.eqb (Info s) (Info b))
        then false else repetition in
      detect (S j) rest' buffer repetition
  end.

(** [for j := 0; j < cycleSize; j++ { result = append(result,
    buffer.push(subset[j])) }], with [n] iterations left. *)
Fixpoint flush_chunk (n j : nat) (subset buffer result : History)
  : exec (History * History) :=
  match n with
  | O => Done (buffer, result)
  | S n' =>
      x ← index subset j;
      '(old, buffer') ← push buffer x;
      flush_chunk n' (S j) subset buffer' (result ++ [old])
  end.

(** [for j := 0; j < cycleSize; j++ { result = append(result, buffer[j]) }],
    with [n] iterations left. *)
Fixpoint flush_buffer (n j : nat) (buffer result : History) : exec History :=
  match n with
  | O => Done result
  | S n' =>
      x ← index buffer j;
      flush_buffer n' (S j) buffer (result ++ [x])
  end.

Definition set_Info (d : DetailedStatus) (info : string) : DetailedStatus :=
  {| Status := Status d; Info := info; Data := Data d; Since := Since d;
     Kind := Kind d; Version := Version d; Life := Life d; Err := Err d |}.

(** One evaluation of the loop condition and, when it holds, of the loop
    body: [inl] is the state at the next evaluation of the condition, [inr]
    the state when the loop is left (condition false, or [break]). *)
Definition walk_step (statuses : History) (cycleSize : Z) (w : walk)
  : exec (walk + walk) :=
  if negb (w_i w <? len statuses)%Z then Done (inr w)
  else if (Int.add (w_i w) cycleSize >? len statuses)%Z then Done (inr w)
  else
    subset ← slice statuses (w_i w) (Int.add (w_i w) cycleSize);
    repetition ← detect 0 subset (w_buffer w) true;
    if (repetition : bool) then
      Done (inl {| w_i := Int.add (w_i w) cycleSize;
                   w_repeat := Int.add (w_repeat w) 1;
                   w_buffer := w_buffer w;
                   w_result := w_result w;
                   w_repeatStatus := w_repeatStatus w |})
    else if (w_repeat w >? 0)%Z then
      let rstatus := Sprintf_repeated cycleSize (w_repeat w) in
      let repeatStatus := set_Info (w_repeatStatus w) rstatus in
      '(buffer, result) ←
        flush_chunk (Z.to_nat cycleSize) 0 subset (w_buffer w) (w_result w);
      Done (inl {| w_i := Int.add (w_i w) cycleSize;
                   w_repeat := 0;
                   w_buffer := buffer;
                   w_result := result ++ [repeatStatus];
                   w_repeatStatus := repeatStatus |})
    else
      x ← indexZ statuses (w_i w);
      '(old, buffer) ← push (w_buffer w) x;
      Done (inl {| w_i := Int.add (w_i w) 1;
                   w_repeat := w_repeat w;
                   w_buffer := buffer;
                   w_result := w_result w ++ [old];
                   w_repeatStatus := w_repeatStatus w |}).

(** The [for] loop: at most [fuel] evaluations of its condition. *)
Fixpoint walk_loop (fuel : nat) (statuses : History) (cycleSize : Z)
  (w : walk) : exec walk :=
  match fuel with
  | O => OutOfFuel
  | S fuel' =>
      r ← walk_step statuses cycleSize w;
      match r with
      | inl w' => walk_loop fuel' statuses cycleSize w'
      | inr w' => Done w'
      end
  end.

(** The statements after the loop. *)
Definition finish (statuses : History) (cycleSize : Z) (w : walk)
  : exec History :=
  result ← flush_buffer (Z.to_nat cycleSize) 0 (w_buffer w) (w_result w);
  let result :=
    if (w_repeat w >? 0)%Z then
      let rstatus := Sprintf_repeated cycleSize (w_repeat w) in
      result ++ [set_Info (w_repeatStatus w) rstatus]
    else result in
  if (w_i w <? len statuses - 1)%Z then
    rest ← slice_from statuses (Int.add (w_i w) 1);
    Done (result ++ rest)
  else Done result.

(** The value of [repeatStatus] before the loop; [now] is the reading of
    the clock taken by [time.Now()]. *)
Definition repeatStatus0 (now : Time) : DetailedStatus :=
  {| Status := Idle; Info := ""; Data := ∅; Since := Some now;
     Kind := ""; Version := ""; Life := ""; Err := None |}.

Definition walk0 (now : Time) (cycleSize : Z) (buffer : History) : walk :=
  {| w_i := cycleSize; w_repeat := 0; w_buffer := buffer; w_result := [];
     w_repeatStatus := repeatStatus0 now |}.

(** [h.SquashLogs(cycleSize)], the clock reading [now] being an input and
    the loop running for at most [fuel] evaluations of its condition. *)
Definition SquashLogs (fuel : nat) (now : Time) (h : History) (cycleSize : Z)
  : exec History :=
  let statuses := h in
  if (len statuses <=? cycleSize)%Z then Done statuses
  else
    buffer ← seed (Z.to_nat cycleSize) 0 statuses [];
    w ← walk_loop fuel statuses cycleSize (walk0 now cycleSize buffer);
    finish statuses cycleSize w.

(** ** Vocabulary of the claims *)

Definition selectors (f : StatusHistoryFilter) : list bool :=
  [bool_decide (0 < Size f)%Z; non_nil (FromDate f); non_nil (Delta f)].

Definition count_true (bs : list bool) : nat :=
  length (filter (fun b => b = true) bs).

Definition conflict_messages : list string :=
  ["Size and Date together"; "Size and Delta together";
   "Date and Delta together"].

Definition with_Exclude (f : StatusHistoryFilter) (e : gset string)
  : StatusHistoryFilter :=
  {| Size := Size f; FromDate := FromDate f; Delta := Delta f; Exclude := e |}.

(** The pair of selectors named by a conflict message is set in [f]. *)
Definition names_set_pair (f : StatusHistoryFilter) (msg : string) : Prop :=
  (msg = "Size and Date together" ∧ (0 < Size f)%Z ∧ FromDate f ≠ None)
  ∨ (msg = "Size and Delta together" ∧ (0 < Size f)%Z ∧ Delta f ≠ None)
  ∨ (msg = "Date and Delta together" ∧ FromDate f ≠ None ∧ Delta f ≠ None).

(** The seven kinds of status history entries. *)
Definition valid_kinds : list HistoryKind :=
  ["unit"; "juju-unit"; "workload"; "machine"; "juju-machine"; "container";
   "juju-container"].

(** The marker that summarises [repeat] repetitions of a cycle. *)
Definition marker (now : Time) (cycleSize repeat : Z) : DetailedStatus :=
  {| Status := Idle; Info := Sprintf_repeated cycleSize repeat; Data := ∅;
     Since := Some now; Kind := ""; Version := ""; Life := ""; Err := None |}.

(** The comparison of the walk: same status and same info. *)
Definition same_entry (a b : DetailedStatus) : Prop :=
  Status a = Status b ∧ Info a = Info b.

(** A record with only its status, info and timestamp set. *)
Definition entry (st : StatusName) (info : string) (since : Time)
  : DetailedStatus :=
  {| Status := st; Info := info; Data := ∅; Since := Some since;
     Kind := KindWorkload; Version := ""; Life := ""; Err := None |}.

Arguments entry st%_string info%_string since%_Z.
Arguments SquashLogs fuel%_nat now%_Z h cycleSize%_Z.
Arguments marker now%_Z cycleSize%_Z repeat%_Z.

(** Three records with different infos. *)
Definition ex3 : History :=
  [entry "active" "a" 1; entry "active" "b" 2; entry "active" "c" 3].

(** ** The walk of SquashLogs as a step relation *)

(** The chunk [statuses[i : i+cycleSize]] that the walk looks at in [w]. *)
Definition chunk (statuses : History) (cycleSize : Z) (w : walk) : History :=
  take (Z.to_nat cycleSize) (drop (Z.to_nat (w_i w)) statuses).

(** The chunk repeats the buffer: every record has the status and the info
    of the buffer's record at the same position. *)
Definition repeats (statuses : History) (cycleSize : Z) (w : walk) : Prop :=
  Forall2 same_entry (chunk statuses cycleSize w) (w_buffer w).

(** What holds of the variables of the walk each time the loop condition is
    evaluated, for [1 <= cycleSize < len(statuses)]. *)
Definition walk_inv (now : Time) (statuses : History) (cycleSize : Z)
  (w : walk) : Prop :=
  (cycleSize ≤ w_i w ≤ len statuses)%Z
  ∧ len (w_buffer w) = cycleSize
  ∧ (0 ≤ w_repeat w ≤ w_i w)%Z
  ∧ ∀ info, set_Info (w_repeatStatus w) info = set_Info (repeatStatus0 now) info.

(** The five ways one evaluation of the loop goes. *)
Inductive walk_case (now : Time) (statuses : History) (cycleSize : Z)
  (w : walk) : walk + walk → Prop :=
| walk_end :
    (len statuses ≤ w_i w)%Z →
    walk_case now statuses cycleSize w (inr w)
| walk_break :
    (w_i w < len statuses < w_i w + cycleSize)%Z →
    walk_case now statuses cycleSize w (inr w)
| walk_repetition :
    (w_i w + cycleSize ≤ len statuses)%Z →
    repeats statuses cycleSize w →
    walk_case now statuses cycleSize w
      (inl {| w_i := w_i w + cycleSize;
              w_repeat := w_repeat w + 1;
              w_buffer := w_buffer w;
              w_result := w_result w;
              w_repeatStatus := w_repeatStatus w |})
| walk_flush :
    (w_i w + cycleSize ≤ len statuses)%Z →
    ¬ repeats statuses cycleSize w →
    (0 < w_repeat w)%Z →
    walk_case now statuses cycleSize w
      (inl {| w_i := w_i w + cycleSize;
              w_repeat := 0;
              w_buffer := chunk statuses cycleSize w;
              w_result := w_result w ++ w_buffer w
                          ++ [marker now cycleSize (w_repeat w)];
              w_repeatStatus := marker now cycleSize (w_repeat w) |})
| walk_push (x : DetailedStatus) :
    (w_i w + cycleSize ≤ len statuses)%Z →
    ¬ repeats statuses cycleSize w →
    w_repeat w = 0%Z →
    statuses !! Z.to_nat (w_i w) = Some x →
    walk_case now statuses cycleSize w
      (inl {| w_i := w_i w + 1;
              w_repeat := 0;
              w_buffer := drop 1 (w_buffer w) ++ [x];
              w_result := w_result w ++ take 1 (w_buffer w);
              w_repeatStatus := w_repeatStatus w |}).

(** The marker appended after the loop, if any. *)
Definition final_marker (now : Time) (cycleSize : Z) (w : walk) : History :=
  if (0 <? w_repeat w)%Z then [marker now cycleSize (w_repeat w)] else [].

(** The states of the walk that a run of [SquashLogs] goes through. *)
Inductive walks (now : Time) (statuses : History) (cycleSize : Z)
  : walk → Prop :=
| walks_start (buffer : History) :
    seed (Z.to_nat cycleSize) 0 statuses [] = Done buffer →
    walks now statuses cycleSize (walk0 now cycleSize buffer)
| walks_next (w w' : walk) :
    walks now statuses cycleSize w →
    walk_step statuses cycleSize w = Done (inl w') →
    walks now statuses cycleSize w'.

(** The records come from the input, the markers from the walk. *)
Definition input_or_marker (now : Time) (statuses : History) (cycleSize : Z)
  (x : DetailedStatus) : Prop :=
  x ∈ statuses ∨ ∃ r : Z, (0 < r)%Z ∧ x = marker now cycleSize r.

(** The walk detects zero repetitions: in no state that the run goes through
    does a full chunk repeat the buffer. *)
Definition zero_repetitions (now : Time) (statuses : History)
  (cycleSize : Z) : Prop :=
  ∀ w, walks now statuses cycleSize w →
       (w_i w + cycleSize ≤ len statuses)%Z →
       ¬ repeats statuses cycleSize w.

(** The same on the input alone: no [cycleSize] records starting at an index
    [i] with [cycleSize <= i <= len - cycleSize] repeat the [cycleSize]
    records before them. *)
Definition no_repetition (statuses : History) (cycleSize : Z) : Prop :=
  let c := Z.to_nat cycleSize in
  Forall (fun i : nat =>
            ¬ Forall2 same_entry (take c (drop i statuses))
                (take c (drop (i - c) statuses)))
         (seq c (length statuses + 1 - 2 * c)).

(** What the walk holds when it has detected no repetition so far: the
    buffer is the [cycleSize] records before [i], the output the records
    before the buffer. *)
Definition plain_walk (statuses : History) (cycleSize : Z) (w : walk) : Prop :=
  let c := Z.to_nat cycleSize in
  let i := Z.to_nat (w_i w) in
  w_repeat w = 0%Z
  ∧ (w_i w ≤ Z.max cycleSize (len statuses + 1 - cycleSize))%Z
  ∧ w_result w = take (i - c) statuses
  ∧ w_buffer w = take c (drop (i - c) statuses).

(** Four records with different infos. *)
Definition ex4 : History :=
  [entry "active" "a" 1; entry "active" "b" 2; entry "active" "c" 3;
   entry "active" "d" 4].

(** Eight records of which the third and fourth have the status and info
    of the first and second, and no other pair of records agrees. *)
Definition rec1 : DetailedStatus := entry "maintenance" "installing" 1.
Definition rec2 : DetailedStatus := entry "active" "ready" 2.
Definition rec3 : DetailedStatus := entry "maintenance" "installing" 3.
Definition rec4 : DetailedStatus := entry "active" "ready" 4.
Definition rec5 : DetailedStatus := entry "blocked" "no database" 5.
Definition rec6 : DetailedStatus := entry "waiting" "for database" 6.
Definition rec7 : DetailedStatus := entry "maintenance" "configuring" 7.
Definition rec8 : DetailedStatus := entry "active" "serving" 8.

Definition ex8 : History :=
  [rec1; rec2; rec3; rec4; rec5; rec6; rec7; rec8].

(** The output so far and the buffer hold input records and markers only. *)
Definition from_input (now : Time) (statuses : History) (cycleSize : Z)
  (w : walk) : Prop :=
  Forall (input_or_marker now statuses cycleSize) (w_result w)
  ∧ Forall (fun x => x ∈ statuses) (w_buffer w).

(** Two walks at the same index, with the same count, whose buffers and
    outputs agree record by record on status and info. *)
Definition same_walk (w1 w2 : walk) : Prop :=
  w_i w1 = w_i w2
  ∧ w_repeat w1 = w_repeat w2
  ∧ Forall2 same_entry (w_buffer w1) (w_buffer w2)
  ∧ Forall2 same_entry (w_result w1) (w_result w2).

(** The result of one run agrees with the result of another. *)
Definition same_output (r1 r2 : exec History) : Prop :=
  match r1, r2 with
  | Done out1, Done out2 => Forall2 same_entry out1 out2
  | _, _ => False
  end.

(** [d] with every field but [Status] and [Info] replaced. *)
Definition with_other_fields (d : DetailedStatus) (data : gmap string iface)
  (since : option Time) (kind : HistoryKind) (version life : string)
  (err : option string) : DetailedStatus :=
  {| Status := Status d; Info := Info d; Data := data; Since := since;
     Kind := kind; Version := version; Life := life; Err := err |}.

(** A filter that asks for the last twenty records, and one that sets both
    a size and a date. *)
Definition filter_size : StatusHistoryFilter :=
  {| Size := 20; FromDate := None; Delta := None; Exclude := {["idle"]} |}.

Definition filter_size_date : StatusHistoryFilter :=
  {| Size := 20; FromDate := Some 1462147200%Z; Delta := None;
     Exclude := ∅ |}.

(** ** Runs of repetitions *)

(** The walk [k] repetitions of the buffer later. *)
Definition advance (cycleSize : Z) (k : nat) (w : walk) : walk :=
  {| w_i := w_i w + Z.of_nat k * cycleSize;
     w_repeat := w_repeat w + Z.of_nat k;
     w_buffer := w_buffer w;
     w_result := w_result w;
     w_repeatStatus := w_repeatStatus w |}.

(** The [k] chunks after the first repeat the first. *)
Definition repeats_first (statuses : History) (cycleSize : Z) (k : nat)
  : Prop :=
  let c := Z.to_nat cycleSize in
  Forall (fun j : nat =>
            Forall2 same_entry (take c (drop (j * c) statuses))
              (take c statuses))
         (seq 1 k).

(** A run of [k] repetitions of the first chunk, ended by a full chunk that
    does not repeat it. *)
Definition run_ended (statuses : History) (cycleSize : Z) (k : nat) : Prop :=
  let c := Z.to_nat cycleSize in
  ((k + 2) * c ≤ length statuses)%nat
  ∧ repeats_first statuses cycleSize k
  ∧ ¬ Forall2 same_entry (take c (drop ((k + 1) * c) statuses))
        (take c statuses).

(** A run of [k] repetitions of the first chunk, after which no full chunk
    is left. *)
Definition run_at_end (statuses : History) (cycleSize : Z) (k : nat) : Prop :=
  let c := Z.to_nat cycleSize in
  ((k + 1) * c ≤ length statuses < (k + 2) * c)%nat
  ∧ repeats_first statuses cycleSize k.

(** ** More vocabulary for SquashLogs *)

(** The marker after a run of [n] repetitions, if there was any. *)
Definition marker_if (now : Time) (cycleSize n : Z) : History :=
  if (0 <? n)%Z then [marker now cycleSize n] else [].

(** Squashing with cycles of one record, by recursion on the input: [cur]
    is the first record of the current run of records with the same status
    and info, [n] the number of records of the run seen after it. *)
Fixpoint squash_runs (now : Time) (cur : DetailedStatus) (n : Z)
  (rest : History) : History :=
  match rest with
  | [] => cur :: marker_if now 1 n
  | x :: rest' =>
      if decide (same_entry x cur) then squash_runs now cur (n + 1) rest'
      else cur :: marker_if now 1 n ++ squash_runs now x 0 rest'
  end.

(** The output so far, the buffer and a pending marker take no more room
    than the records the walk has gone past. *)
Definition no_longer (cycleSize : Z) (w : walk) : Prop :=
  (len (w_result w) + cycleSize + (if (0 <? w_repeat w)%Z then 1 else 0)
   ≤ w_i w)%Z.

(** The output so far and the buffer start with the first [cycleSize]
    records of the input. *)
Definition keeps_head (statuses : History) (cycleSize : Z) (w : walk) : Prop :=
  take (Z.to_nat cycleSize) (w_result w ++ w_buffer w)
  = take (Z.to_nat cycleSize) statuses.

(** The input is [k + 1] chunks of [cycleSize] records, and every chunk
    after the first repeats the first. *)
Definition all_repeat (statuses : History) (cycleSize : Z) (k : nat) : Prop :=
  let c := Z.to_nat cycleSize in
  length statuses = ((k + 1) * c)%nat
  ∧ Forall (fun j : nat =>
              Forall2 same_entry (take c (drop (j * c) statuses))
                (take c statuses))
           (seq 1 k).

(** The walk has seen repetitions of the first chunk only. *)
Definition counting (statuses : History) (cycleSize : Z) (w : walk) : Prop :=
  w_result w = []
  ∧ w_buffer w = take (Z.to_nat cycleSize) statuses
  ∧ w_i w = ((w_repeat w + 1) * cycleSize)%Z.

(** Six records: three times the same pair of status and info. *)
Definition ex6 : History :=
  [entry "maintenance" "installing" 1; entry "active" "ready" 2;
   entry "maintenance" "installing" 3; entry "active" "ready" 4;
   entry "maintenance" "installing" 5; entry "active" "ready" 6].

(** * Model configuration (package config)

    A Go [range] over a map visits the entries in an order that the language
    leaves open: a function with such a loop takes the order of the visit as
    an argument, and its properties are stated for every order that
    enumerates the map ([ranges]). *)

Definition ranges {V : Type} (m : gmap string V) (order : list (string * V))
  : Prop :=
  order ≡ₚ map_to_list m.

(** ** Harvest modes *)

(** [type HarvestMode uint32]. *)
Abbreviation HarvestMode := Z (only parsing).

(** [1 << iota] for [iota] = 0, 1, 2, and the union of the last two. *)
Definition HarvestNone : HarvestMode := Z.shiftl 1 0.
Definition HarvestUnknown : HarvestMode := Z.shiftl 1 1.
Definition HarvestDestroyed : HarvestMode := Z.shiftl 1 2.
Definition HarvestAll : HarvestMode := Z.lor HarvestUnknown HarvestDestroyed.

Definition harvestingMethodToFlag : gmap Z string :=
  <[HarvestAll := "all"]>
  (<[HarvestNone := "none"]>
  (<[HarvestUnknown := "unknown"]>
  (<[HarvestDestroyed := "destroyed"]> ∅))).

(** [method.String()]. *)
Definition HarvestMode_String (method : HarvestMode) : exec string :=
  match harvestingMethodToFlag !! method with
  | Some description => Done description
  | None => Panic
  end.

(** [method.HarvestNone()], [method.HarvestDestroyed()] and
    [method.HarvestUnknown()]. *)
Definition HarvestMode_HarvestNone (method : HarvestMode) : bool :=
  negb (Z.land method HarvestNone =? 0)%Z.

Definition HarvestMode_HarvestDestroyed (method : HarvestMode) : bool :=
  negb (Z.land method HarvestDestroyed =? 0)%Z.

Definition HarvestMode_HarvestUnknown (method : HarvestMode) : bool :=
  negb (Z.land method HarvestUnknown =? 0)%Z.

(** The error built by [fmt.Errorf]. *)
Inductive fmt_error : Type :=
| Errorf (msg : string).

(** [for method, descr := range harvestingMethodToFlag { if description ==
    descr { return method, nil } }], over the entries still to visit. *)
Fixpoint ParseHarvestMode_range (entries : list (Z * string))
  (description : string) : option HarvestMode :=
  match entries with
  | [] => None
  | (method, descr) :: entries' =>
      if String.eqb description descr then Some method
      else ParseHarvestMode_range entries' description
  end.

(** [ParseHarvestMode(description)]; [ToLower] is [strings.ToLower] and
    [order] the order in which the loop visits [harvestingMethodToFlag]. *)
Definition ParseHarvestMode (ToLower : string → string)
  (order : list (Z * string)) (description : string)
  : HarvestMode + fmt_error :=
  let description := ToLower description in
  match ParseHarvestMode_range order description with
  | Some method => inl method
  | None => inr (Errorf ("unknown harvesting method: " +:+ description))
  end.

(** [strings.ToLower] on strings of ASCII characters. *)
Fixpoint ascii_lower (s : string) : string :=
  match s with
  | EmptyString => EmptyString
  | String a s' =>
      let n := Ascii.nat_of_ascii a in
      String (if ((65 <=? n) && (n <=? 90))%nat
              then Ascii.ascii_of_nat (n + 32) else a)
             (ascii_lower s')
  end.

(** ** Configurations *)

(** The values that a configuration holds under [interface{}]; the [nil]
    map is [VTags None]. *)
#[warnings="-register-all"]
Inductive attr : Type :=
| VNil
| VBool (b : bool)
| VInt (z : Z)
| VString (s : string)
| VList (l : list attr)
| VTags (m : option (gmap string string)).

Record Config : Type := {
  defined : gmap string attr;
  unknown : gmap string attr
}.

Definition ProvisionerHarvestModeKey : string := "provisioner-harvest-mode".
Definition HTTPProxyKey : string := "http-proxy".
Definition HTTPSProxyKey : string := "https-proxy".
Definition FTPProxyKey : string := "ftp-proxy".
Definition NoProxyKey : string := "no-proxy".
Definition AptHTTPProxyKey : string := "apt-http-proxy".
Definition AptHTTPSProxyKey : string := "apt-https-proxy".
Definition AptFTPProxyKey : string := "apt-ftp-proxy".
Definition AptNoProxyKey : string := "apt-no-proxy".
Definition ResourceTagsKey : string := "resource-tags".

(** [value, _ := c.defined[name].(string)]. *)
Definition asString (c : Config) (name : string) : string :=
  match defined c !! name with
  | Some (VString value) => value
  | _ => ""
  end.

Definition mustString (c : Config) (name : string) : exec string :=
  let value := asString c name in
  if String.eqb value "" then Panic else Done value.

Definition getWithFallback (c : Config) (key fallback : string) : string :=
  let value := asString c key in
  if String.eqb value "" then asString c fallback else value.

(** [strings.Contains(s, substr)]. *)
Fixpoint Contains (s substr : string) : bool :=
  String.prefix substr s
  || match s with
     | EmptyString => false
     | String _ s' => Contains s' substr
     end.

Definition addSchemeIfMissing (defaultScheme url : string) : string :=
  if negb (String.eqb url "") && negb (Contains url "://")
  then defaultScheme +:+ "://" +:+ url
  else url.

(** [proxy.Settings], of package [github.com/juju/utils/proxy]. *)
Record Settings : Type := {
  Http : string;
  Https : string;
  Ftp : string;
  NoProxy_ : string
}.

Definition HTTPProxy (c : Config) : string := asString c HTTPProxyKey.
Definition HTTPSProxy (c : Config) : string := asString c HTTPSProxyKey.
Definition FTPProxy (c : Config) : string := asString c FTPProxyKey.
Definition NoProxy (c : Config) : string := asString c NoProxyKey.

Definition ProxySettings (c : Config) : Settings :=
  {| Http := HTTPProxy c; Https := HTTPSProxy c; Ftp := FTPProxy c;
     NoProxy_ := NoProxy c |}.

Definition AptHTTPProxy (c : Config) : string :=
  addSchemeIfMissing "http" (getWithFallback c AptHTTPProxyKey HTTPProxyKey).

Definition AptHTTPSProxy (c : Config) : string :=
  addSchemeIfMissing "https"
    (getWithFallback c AptHTTPSProxyKey HTTPSProxyKey).

Definition AptFTPProxy (c : Config) : string :=
  addSchemeIfMissing "ftp" (getWithFallback c AptFTPProxyKey FTPProxyKey).

Definition AptNoProxy (c : Config) : string :=
  getWithFallback c AptNoProxyKey NoProxyKey.

Definition AptProxySettings (c : Config) : Settings :=
  {| Http := AptHTTPProxy c; Https := AptHTTPSProxy c; Ftp := AptFTPProxy c;
     NoProxy_ := AptNoProxy c |}.

Definition addIfNotEmpty (settings : gmap string attr) (key value : string)
  : gmap string attr :=
  if negb (String.eqb value "") then <[key := VString value]> settings
  else settings.

Definition ProxyConfigMap (proxySettings : Settings) : gmap string attr :=
  let settings := ∅ in
  let settings := addIfNotEmpty settings HTTPProxyKey (Http proxySettings) in
  let settings := addIfNotEmpty settings HTTPSProxyKey (Https proxySettings) in
  let settings := addIfNotEmpty settings FTPProxyKey (Ftp proxySettings) in
  addIfNotEmpty settings NoProxyKey (NoProxy_ proxySettings).

Definition AptProxyConfigMap (proxySettings : Settings) : gmap string attr :=
  let settings := ∅ in
  let settings :=
    addIfNotEmpty settings AptHTTPProxyKey (Http proxySettings) in
  let settings :=
    addIfNotEmpty settings AptHTTPSProxyKey (Https proxySettings) in
  let settings := addIfNotEmpty settings AptFTPProxyKey (Ftp proxySettings) in
  addIfNotEmpty settings AptNoProxyKey (NoProxy_ proxySettings).

(** [for k, v := range m { attrs[k] = v }], visiting [m] in [order]. *)
Definition copy_into (attrs : gmap string attr)
  (order : list (string * attr)) : gmap string attr :=
  foldl (fun attrs kv => <[kv.1 := kv.2]> attrs) attrs order.

(** [ProcessDeprecatedAttributes(attrs)], visiting [attrs] in [order]. *)
Definition ProcessDeprecatedAttributes (order : list (string * attr))
  (attrs : gmap string attr) : gmap string attr :=
  let processedAttrs := ∅ in
  copy_into processedAttrs order.

(** [c.UnknownAttrs()], visiting [c.unknown] in [order]. *)
Definition UnknownAttrs (order : list (string * attr)) (c : Config)
  : gmap string attr :=
  let newAttrs := ∅ in
  copy_into newAttrs order.

(** [c.AllAttrs()], visiting [c.unknown] in [order_unknown] and [c.defined]
    in [order_defined]. *)
Definition AllAttrs (order_unknown order_defined : list (string * attr))
  (c : Config) : gmap string attr :=
  let allAttrs := UnknownAttrs order_unknown c in
  copy_into allAttrs order_defined.

(** The error built by [errors.Errorf("tag %q uses reserved prefix %q", k,
    tags.JujuTagPrefix)]. *)
Inductive tag_error : Type :=
| ReservedPrefix (k prefix : string).

(** [strings.HasPrefix(s, prefix)]. *)
Definition HasPrefix (s prefix : string) : bool := String.prefix prefix s.

(** [c.resourceTags()]; [JujuTagPrefix] is the constant of package
    [environs/tags], [order] the order in which the loop visits the keys of
    the tags. *)
Definition resourceTags (JujuTagPrefix : string) (order : list string)
  (c : Config) : option (gmap string string) + tag_error :=
  match defined c !! ResourceTagsKey with
  | Some (VTags v) =>
      match find (fun k => HasPrefix k JujuTagPrefix) order with
      | Some k => inr (ReservedPrefix k JujuTagPrefix)
      | None => inl v
      end
  | _ => inl None
  end.

(** [c.ResourceTags()]: the tags, and whether they are not [nil]. *)
Definition ResourceTags (JujuTagPrefix : string) (order : list string)
  (c : Config) : exec (option (gmap string string) * bool) :=
  match resourceTags JujuTagPrefix order c with
  | inr _ => Panic
  | inl tags => Done (tags, non_nil tags)
  end.

(** The keys of the tags, for the loop of [resourceTags]. *)
Definition tag_keys (c : Config) : list string :=
  match defined c !! ResourceTagsKey with
  | Some (VTags (Some v)) => (map_to_list v).*1
  | _ => []
  end.

(** [c.ProvisionerHarvestMode()]. *)
Definition ProvisionerHarvestMode (ToLower : string → string)
  (order : list (Z * string)) (c : Config) : exec HarvestMode :=
  match defined c !! ProvisionerHarvestModeKey with
  | Some (VString v) =>
      match ParseHarvestMode ToLower order v with
      | inr _ => Panic
      | inl method => Done method
      end
  | _ => Done HarvestDestroyed
  end.

(** [fmt.Sprintf("%v=%v", resKey, resValue)] on two strings. *)
Definition Sprintf_tag (resKey resValue : string) : string :=
  resKey +:+ "=" +:+ resValue.

(** [strings.Join(elems, sep)]. *)
Definition Join (elems : list string) (sep : string) : string :=
  String.concat sep elems.

(** The entries that [for resKey, resValue := range tags] goes through:
    those of the map in the order [visit] gives them, none for the [nil]
    map. *)
Definition range_tags (visit : gmap string string → list (string * string))
  (tags : option (gmap string string)) : list (string * string) :=
  match tags with
  | Some t => visit t
  | None => []
  end.

(** The body of the loop of [CoerceForStorage] up to the assignment: the
    value stored under [attrName]; [visit] is the order in which the inner
    loop visits a map of tags. *)
Definition coerce_attr (visit : gmap string string → list (string * string))
  (attrName : string) (attrValue : attr) : attr :=
  if String.eqb attrName ResourceTagsKey then
    match attrValue with
    | VTags tags =>
        let tagsSlice :=
          foldl (fun tagsSlice kv => tagsSlice ++ [Sprintf_tag kv.1 kv.2])
            [] (range_tags visit tags) in
        VString (Join tagsSlice " ")
    | _ => attrValue
    end
  else attrValue.

(** [CoerceForStorage(attrs)], visiting [attrs] in [order] and a map of tags
    as [visit] does. *)
Definition CoerceForStorage (order : list (string * attr))
  (visit : gmap string string → list (string * string))
  (attrs : gmap string attr) : gmap string attr :=
  let coercedAttrs := ∅ in
  foldl (fun coercedAttrs kv =>
           <[kv.1 := coerce_attr visit kv.1 kv.2]> coercedAttrs)
    coercedAttrs order.

(** A URL is qualified when it is empty or has a scheme separator. *)
Definition qualified (url : string) : Prop :=
  url = "" ∨ Contains url "://" = true.

(** The tags of a configuration, [nil] when there are none. *)
Definition tags_of (c : Config) : option (gmap string string) :=
  match defined c !! ResourceTagsKey with
  | Some (VTags v) => v
  | _ => None
  end.

Definition proxy_keys : list string :=
  [HTTPProxyKey; HTTPSProxyKey; FTPProxyKey; NoProxyKey].

(** A configuration with a harvest mode in capitals, proxies, apt proxies
    without scheme, tags, and one attribute that the schema does not know. *)
Definition cfg1 : Config :=
  {| defined :=
       <["name" := VString "controller"]>
       (<[ProvisionerHarvestModeKey := VString "ALL"]>
       (<[HTTPProxyKey := VString "http://proxy.internal:3128"]>
       (<[NoProxyKey := VString "127.0.0.1,localhost,::1"]>
       (<[AptFTPProxyKey := VString "ftp.internal"]>
       (<[ResourceTagsKey :=
            VTags (Some (<["owner" := "ops"]> (<["env" := "prod"]> ∅)))]>
        ∅)))));
     unknown := <["region" := VString "eu-west-1"]> ∅ |}.

Definition settings1 : Settings :=
  {| Http := "http://proxy.internal:3128"; Https := ""; Ftp := "";
     NoProxy_ := "127.0.0.1,localhost,::1" |}.

(** The four modes that have a description. *)
Definition named_modes : list Z :=
  [HarvestNone; HarvestUnknown; HarvestDestroyed; HarvestAll].
(** * Properties *)

(** ** Validate *)

(** C4: [Validate] succeeds exactly when one of the three selectors is set;
    with none set the error is NotValid "missing filter parameters"; with
    more than one set the error is NotValid with a message that names a pair
    of selectors both of which are set; [Exclude] plays no role. *)
Theorem Validate_exactly_one (f : StatusHistoryFilter) :
  (Validate f = None ↔ count_true (selectors f) = 1%nat)
  ∧ (count_true (selectors f) = 0%nat →
     Validate f = Some (NotValid "missing filter parameters"))
  ∧ ((1 < count_true (selectors f))%nat →
     ∃ msg, Validate f = Some (NotValid msg) ∧ msg ∈ conflict_messages
            ∧ names_set_pair f msg)
  ∧ (∀ e, Validate (with_Exclude f e) = Validate f).
Proof.
  destruct f as [sz fd dl ex].
  unfold Validate, selectors, count_true, names_set_pair, conflict_messages,
    NotValidf; simpl.
  destruct (Z.ltb_spec 0 sz) as [Hs|Hs].
  - rewrite (bool_decide_eq_true_2 _ Hs).
    destruct fd as [t|], dl as [d|]; simpl;
      (split; [split; (lia || congruence || done) |]);
      (split; [intros; (lia || done) |]);
      (split; [| done]); intros Hc; try lia.
    + eexists; split; [done|]. split; [set_solver|]. left. done.
    + eexists; split; [done|]. split; [set_solver|]. left. done.
    + eexists; split; [done|]. split; [set_solver|]. right; left. done.
  - rewrite (bool_decide_eq_false_2 (0 < sz)%Z) by lia.
    destruct fd as [t|], dl as [d|]; simpl;
      (split; [split; (lia || congruence || done) |]);
      (split; [intros; (lia || done) |]);
      (split; [| done]); intros Hc; try lia.
    eexists; split; [done|]. split; [set_solver|]. right; right. done.
Qed.

(** ** Slices and machine integers *)

Lemma Int_add_small (a b : Z) :
  Int.in_range (a + b) → Int.add a b = (a + b)%Z.
Proof.
  unfold Int.in_range, Int.min_int, Int.max_int, Int.add, Int.wrap.
  intros H. rewrite Z.mod_small; lia.
Qed.

Lemma index_lookup {A : Type} (s : list A) (i : nat) (x : A) :
  s !! i = Some x → index s i = Done x.
Proof. unfold index. by intros ->. Qed.

Lemma index_None {A : Type} (s : list A) (i : nat) :
  (length s ≤ i)%nat → index s i = Panic.
Proof. unfold index. intros H. by rewrite lookup_ge_None_2. Qed.

Lemma store_in_range {A : Type} (s : list A) (i : nat) (x : A) :
  (i < length s)%nat → store s i x = Done (<[i:=x]> s).
Proof. unfold store. intros H. by rewrite decide_True. Qed.

Lemma slice_in_range {A : Type} (s : list A) (lo hi : Z) :
  (0 ≤ lo ≤ hi)%Z → (hi ≤ len s)%Z →
  slice s lo hi = Done (take (Z.to_nat (hi - lo)) (drop (Z.to_nat lo) s)).
Proof.
  intros [H1 H2] H3. unfold slice.
  destruct (Z.leb_spec 0 lo); [|lia].
  destruct (Z.leb_spec lo hi); [|lia].
  destruct (Z.leb_spec hi (len s)); [done|lia].
Qed.

Lemma slice_negative {A : Type} (s : list A) (lo hi : Z) :
  (lo < 0)%Z → slice s lo hi = Panic.
Proof.
  intros H. unfold slice. destruct (Z.leb_spec 0 lo); [lia|done].
Qed.

(** ** push *)

Lemma push_shift_spec (mid : History) : ∀ (pre : History) x (rest : History),
  push_shift (length mid) (length pre) (pre ++ x :: mid ++ rest)
  = Done (pre ++ mid ++ [default x (last mid)] ++ rest).
Proof.
  induction mid as [|m mid IH]; intros pre x rest; simpl; [done|].
  rewrite (index_lookup _ _ m).
  2:{ rewrite lookup_app_r by lia.
      by replace (length pre + 1 - length pre)%nat with 1%nat by lia. }
  simpl. rewrite store_in_range by (rewrite length_app; simpl; lia).
  simpl.
  replace (<[length pre:=m]> (pre ++ x :: m :: mid ++ rest))
    with ((pre ++ [m]) ++ m :: mid ++ rest).
  2:{ rewrite insert_app_r_alt by lia.
      replace (length pre - length pre)%nat with 0%nat by lia.
      simpl. by rewrite <- app_assoc. }
  replace (S (length pre)) with (length (pre ++ [m]))
    by (rewrite length_app; simpl; lia).
  rewrite IH. rewrite <- app_assoc. simpl.
  rewrite last_cons. by destruct (last mid).
Qed.

Lemma push_cons (x : DetailedStatus) (rest : History) (new : DetailedStatus) :
  push (x :: rest) new = Done (x, rest ++ [new]).
Proof.
  unfold push. simpl. rewrite Nat.sub_0_r.
  pose proof (push_shift_spec rest [] x []) as H. simpl in H.
  rewrite app_nil_r in H. rewrite H. simpl.
  rewrite length_app. simpl.
  rewrite store_in_range by (rewrite length_app; simpl; lia).
  simpl. do 2 f_equal.
  replace (length rest + 1 - 1)%nat with (length rest + 0)%nat by lia.
  by rewrite insert_app_r.
Qed.

Lemma push_nil (new : DetailedStatus) : push [] new = Panic.
Proof. done. Qed.

(** C5: on a non-empty window, [push] returns the element at index 0, moves
    every other element one position towards index 0, writes the new record
    into the last slot and keeps the length; on the window [A, B, C] with
    new record D it returns A and leaves [B, C, D]. *)
Theorem push_evicts_oldest (window : History) (newRecord : DetailedStatus) :
  window ≠ [] →
  ∃ old window',
    push window newRecord = Done (old, window')
    ∧ window !! 0%nat = Some old
    ∧ length window' = length window
    ∧ (∀ i, (i + 1 < length window)%nat → window' !! i = window !! (i + 1)%nat)
    ∧ window' !! (length window - 1)%nat = Some newRecord
    ∧ (∀ A B C, window = [A; B; C] → old = A ∧ window' = [B; C; newRecord]).
Proof.
  destruct window as [|x rest]; [done|]. intros _.
  exists x, (rest ++ [newRecord]). rewrite push_cons.
  split; [done|]. split; [done|].
  split; [rewrite length_app; simpl; lia|].
  split.
  { intros i Hi. simpl in Hi. rewrite lookup_app_l by lia.
    by replace (i + 1)%nat with (S i) by lia. }
  split.
  { simpl. rewrite Nat.sub_0_r.
    replace (length rest) with (length rest + 0)%nat at 1 by lia.
    by rewrite lookup_app_r, Nat.add_comm, Nat.add_sub by lia. }
  intros A B C [= -> ->]. done.
Qed.

Lemma push_evicts_oldest_witness :
  ex3 ≠ [] ∧
  ∃ old window',
    push ex3 (entry "idle" "d" 4) = Done (old, window')
    ∧ ex3 !! 0%nat = Some old
    ∧ length window' = length ex3
    ∧ (∀ i, (i + 1 < length ex3)%nat → window' !! i = ex3 !! (i + 1)%nat)
    ∧ window' !! (length ex3 - 1)%nat = Some (entry "idle" "d" 4)
    ∧ (∀ A B C, ex3 = [A; B; C] →
       old = A ∧ window' = [B; C; entry "idle" "d" 4]).
Proof.
  split; [discriminate|].
  apply (push_evicts_oldest ex3 (entry "idle" "d" 4)). discriminate.
Defined.

(** ** HistoryKind *)

Lemma AllHistoryKind_dom : dom AllHistoryKind = list_to_set valid_kinds.
Proof.
  unfold AllHistoryKind, valid_kinds. rewrite !dom_insert_L, dom_empty_L.
  simpl. done.
Qed.

(** C10: [Valid] holds of exactly the seven kinds (so of "workload" and not
    of "bogus"); the keys of [AllHistoryKind] are exactly those seven, every
    description is non-empty, and a kind is valid exactly when it is a key
    of [AllHistoryKind]. *)
Theorem Valid_AllHistoryKind :
  (∀ k, Valid k = true ↔ k ∈ valid_kinds)
  ∧ NoDup valid_kinds ∧ length valid_kinds = 7%nat
  ∧ Valid "workload" = true ∧ Valid "bogus" = false
  ∧ dom AllHistoryKind = list_to_set valid_kinds
  ∧ size AllHistoryKind = 7%nat
  ∧ (∀ k d, AllHistoryKind !! k = Some d → d ≠ "")
  ∧ (∀ k, Valid k = true ↔ is_Some (AllHistoryKind !! k)).
Proof.
  assert (HV : ∀ k, Valid k = true ↔ k ∈ valid_kinds).
  { intros k. unfold Valid, valid_kinds, KindUnit, KindUnitAgent, KindWorkload,
      KindMachineInstance, KindMachine, KindContainerInstance, KindContainer.
    rewrite !elem_of_cons, elem_of_nil.
    repeat match goal with
      | |- context [String.eqb ?a ?b] =>
          destruct (String.eqb_spec a b); [subst; simpl; tauto|]
      end.
    simpl. split; [done|]. intros H. repeat destruct H as [H|H]; done. }
  split; [exact HV|].
  split; [apply (bool_decide_unpack _); by vm_compute|].
  split; [done|]. split; [done|]. split; [done|].
  split; [exact AllHistoryKind_dom|].
  split.
  { rewrite <- size_dom, AllHistoryKind_dom. by vm_compute. }
  split.
  { intros k d H. unfold AllHistoryKind in H.
    repeat (apply lookup_insert_Some in H as [[_ <-]|[_ H]]; [done|]).
    by rewrite lookup_empty in H. }
  intros k. rewrite HV, <- elem_of_dom, AllHistoryKind_dom.
  by rewrite elem_of_list_to_set.
Qed.

(** ** SquashLogs: the short-circuit *)

(** C8: when [len(statuses) <= cycleSize], [SquashLogs] returns its input
    unchanged, whatever the fuel; this covers a [cycleSize] equal to the
    length of the input. *)
Theorem SquashLogs_short (fuel : nat) (now : Time) (statuses : History)
  (cycleSize : Z) :
  (len statuses ≤ cycleSize)%Z →
  SquashLogs fuel now statuses cycleSize = Done statuses
  ∧ SquashLogs fuel now statuses (len statuses) = Done statuses.
Proof.
  intros H. unfold SquashLogs.
  destruct (Z.leb_spec (len statuses) cycleSize); [|lia].
  destruct (Z.leb_spec (len statuses) (len statuses)); [done|lia].
Qed.

Lemma SquashLogs_short_witness :
  (len ex3 ≤ 3)%Z ∧
  SquashLogs 0 99 ex3 3 = Done ex3
  ∧ SquashLogs 0 99 ex3 (len ex3) = Done ex3.
Proof.
  split; [by vm_compute|].
  apply (SquashLogs_short 0 99%Z ex3 3%Z). by vm_compute.
Defined.

(** ** The inner loops of SquashLogs *)

#[global] Instance same_entry_dec : RelDecision same_entry.
Proof. intros a b. unfold same_entry. apply _. Defined.

Lemma take_S_drop {A : Type} (l : list A) (i n : nat) (x : A) :
  l !! i = Some x →
  take (S n) (drop i l) = x :: take n (drop (S i) l).
Proof. intros H. by rewrite (drop_S _ _ _ H). Qed.

Lemma seed_spec (statuses : History) (n : nat) : ∀ (i : nat) (buffer : History),
  (i + n ≤ length statuses)%nat →
  seed n i statuses buffer = Done (buffer ++ take n (drop i statuses)).
Proof.
  induction n as [|n IH]; intros i buffer Hi; simpl.
  - by rewrite app_nil_r.
  - destruct (lookup_lt_is_Some_2 statuses i) as [x Hx]; [lia|].
    rewrite (index_lookup _ _ _ Hx). simpl.
    rewrite IH by lia. rewrite (take_S_drop _ _ _ _ Hx).
    by rewrite <- app_assoc.
Qed.

Lemma flush_buffer_spec (buffer : History) (n : nat) :
  ∀ (j : nat) (result : History),
  (j + n ≤ length buffer)%nat →
  flush_buffer n j buffer result = Done (result ++ take n (drop j buffer)).
Proof.
  induction n as [|n IH]; intros j result Hj; simpl.
  - by rewrite app_nil_r.
  - destruct (lookup_lt_is_Some_2 buffer j) as [x Hx]; [lia|].
    rewrite (index_lookup _ _ _ Hx). simpl.
    rewrite IH by lia. rewrite (take_S_drop _ _ _ _ Hx).
    by rewrite <- app_assoc.
Qed.

Lemma detect_spec (buffer : History) (rest : History) :
  ∀ (j : nat) (repetition : bool),
  (j + length rest ≤ length buffer)%nat →
  detect j rest buffer repetition
  = Done (repetition
          && bool_decide
               (Forall2 same_entry rest (take (length rest) (drop j buffer)))).
Proof.
  induction rest as [|s rest IH]; intros j repetition Hj; simpl.
  - by destruct repetition.
  - simpl in Hj.
    destruct (lookup_lt_is_Some_2 buffer j) as [b Hb]; [lia|].
    rewrite (index_lookup _ _ _ Hb). simpl.
    rewrite IH by lia. f_equal.
    rewrite (drop_S _ _ _ Hb). simpl.
    destruct (decide (same_entry s b)) as [[Hs Hi]|Hn].
    + rewrite Hs, Hi, !String.eqb_refl. simpl.
      f_equal. apply bool_decide_ext. rewrite Forall2_cons.
      unfold same_entry. tauto.
    + rewrite (bool_decide_eq_false_2 (Forall2 _ (s :: _) _)).
      2:{ rewrite Forall2_cons. tauto. }
      rewrite andb_false_r.
      destruct (String.eqb_spec (Status s) (Status b));
        destruct (String.eqb_spec (Info s) (Info b)); simpl; try done.
      exfalso. apply Hn. done.
Qed.

Lemma flush_chunk_spec (subset : History) (n : nat) :
  ∀ (j : nat) (buffer result : History),
  (j + n ≤ length subset)%nat →
  (n = 0%nat ∨ buffer ≠ []) →
  flush_chunk n j subset buffer result
  = Done (drop n (buffer ++ take n (drop j subset)),
          result ++ take n (buffer ++ take n (drop j subset))).
Proof.
  induction n as [|n IH]; intros j buffer result Hj Hb; simpl.
  - by rewrite !app_nil_r.
  - destruct Hb as [?|Hb]; [lia|].
    destruct buffer as [|b0 bt]; [done|].
    destruct (lookup_lt_is_Some_2 subset j) as [x Hx]; [lia|].
    rewrite (index_lookup _ _ _ Hx). simpl.
    rewrite push_cons. simpl.
    rewrite IH; [|lia|right; by destruct bt].
    rewrite (drop_S _ _ _ Hx). simpl.
    by rewrite <- !app_assoc.
Qed.

(** ** One evaluation of the loop of SquashLogs *)

#[global] Instance repeats_dec statuses cycleSize w :
  Decision (repeats statuses cycleSize w).
Proof. unfold repeats. apply _. Defined.

Section Walk.

Context (now : Time) (statuses : History) (cycleSize : Z).
Hypothesis Hc : (1 ≤ cycleSize)%Z.
Hypothesis Hlen : (cycleSize < len statuses)%Z.
Hypothesis Hmax : (len statuses ≤ max_len)%Z.

Lemma chunk_length (w : walk) :
  (0 ≤ w_i w)%Z → (w_i w + cycleSize ≤ len statuses)%Z →
  length (chunk statuses cycleSize w) = Z.to_nat cycleSize.
Proof.
  intros H0 H. unfold chunk, len in *. rewrite length_take, length_drop. lia.
Qed.

Lemma walk_step_case (w : walk) :
  walk_inv now statuses cycleSize w →
  ∃ r, walk_step statuses cycleSize w = Done r
       ∧ walk_case now statuses cycleSize w r.
Proof.
  intros ([Hi1 Hi2] & Hb & [Hr1 Hr2] & Hrs).
  unfold max_len in Hmax. unfold walk_step.
  destruct (Z.ltb_spec (w_i w) (len statuses)) as [Hlt|Hge]; simpl.
  2:{ eexists; split; [done|]. by apply walk_end. }
  rewrite !Int_add_small
    by (unfold Int.in_range, Int.min_int, Int.max_int; lia).
  destruct (Z.gtb_spec (w_i w + cycleSize) (len statuses)) as [Hgt|Hle].
  { eexists; split; [done|]. apply walk_break. lia. }
  rewrite slice_in_range by lia. simpl.
  replace (w_i w + cycleSize - w_i w)%Z with cycleSize by lia.
  fold (chunk statuses cycleSize w).
  pose proof (chunk_length w ltac:(lia) Hle) as Hcl.
  unfold len in Hb.
  rewrite detect_spec by (rewrite Hcl; lia). simpl.
  rewrite Hcl, drop_0, take_ge by lia.
  fold (repeats statuses cycleSize w).
  destruct (decide (repeats statuses cycleSize w)) as [Hrep|Hrep].
  { rewrite bool_decide_eq_true_2 by done.
    eexists; split; [done|]. by apply walk_repetition. }
  rewrite bool_decide_eq_false_2 by done.
  destruct (Z.gtb_spec (w_repeat w) 0) as [Hpos|Hzero].
  - rewrite flush_chunk_spec; [|rewrite Hcl; lia|].
    2:{ right. intros E. rewrite E in Hb. simpl in Hb. lia. }
    simpl. rewrite drop_0, (take_ge (chunk _ _ _)) by lia.
    rewrite drop_app_length' by lia. rewrite take_app_length' by lia.
    rewrite Hrs. rewrite <- app_assoc.
    eexists; split; [done|]. apply walk_flush; [done|done|lia].
  - unfold indexZ. destruct (Z.ltb_spec (w_i w) 0); [lia|].
    destruct (lookup_lt_is_Some_2 statuses (Z.to_nat (w_i w))) as [x Hx].
    { unfold len in Hlt. lia. }
    rewrite (index_lookup _ _ _ Hx). simpl.
    destruct (w_buffer w) as [|b0 bt] eqn:Ebuf; [simpl in Hb; lia|].
    rewrite push_cons. simpl.
    eexists; split; [done|].
    assert (w_repeat w = 0%Z) as Hr0 by lia.
    pose proof (walk_push now statuses cycleSize w x Hle Hrep Hr0 Hx) as Hp.
    rewrite Ebuf in Hp. simpl in Hp. rewrite drop_0 in Hp.
    by rewrite Hr0.
Qed.

Lemma walk_case_inv (w w' : walk) :
  walk_inv now statuses cycleSize w →
  walk_case now statuses cycleSize w (inl w') →
  walk_inv now statuses cycleSize w' ∧ (w_i w < w_i w')%Z.
Proof.
  intros ([Hi1 Hi2] & Hb & [Hr1 Hr2] & Hrs) Hcase.
  inversion Hcase as [| |Hle Hrep|Hle Hrep Hpos|x Hle Hrep Hr0 Hx]; subst w';
    unfold walk_inv; simpl.
  - repeat split; (lia || done).
  - repeat split; try (lia || done).
    unfold len. rewrite chunk_length by lia. lia.
  - repeat split; try (lia || done).
    unfold len in *. rewrite length_app, length_drop. simpl. lia.
Qed.

Lemma walk_case_exit (w w' : walk) :
  walk_case now statuses cycleSize w (inr w') →
  w' = w ∧ (len statuses < w_i w + cycleSize)%Z.
Proof.
  intros Hcase. inversion Hcase; subst; split; (done || lia).
Qed.

(** The loop leaves with any invariant that every evaluation keeps, within
    one evaluation per remaining record. *)
Lemma walk_loop_rule (P : walk → Prop) :
  (∀ w w', walk_inv now statuses cycleSize w → P w →
           walk_case now statuses cycleSize w (inl w') → P w') →
  ∀ (fuel : nat) (w : walk),
    walk_inv now statuses cycleSize w → P w →
    (len statuses - w_i w < Z.of_nat fuel)%Z →
    ∃ w', walk_loop fuel statuses cycleSize w = Done w'
          ∧ walk_inv now statuses cycleSize w' ∧ P w'
          ∧ (len statuses < w_i w' + cycleSize)%Z.
Proof.
  intros Hstep. induction fuel as [|fuel IH]; intros w Hinv HP Hfuel.
  { destruct Hinv as ([? ?] & _). lia. }
  simpl. destruct (walk_step_case w Hinv) as (r & -> & Hcase). simpl.
  destruct r as [w'|w'].
  - destruct (walk_case_inv w w' Hinv Hcase) as [Hinv' Hlt].
    apply IH; [done|by apply (Hstep w w')|lia].
  - apply walk_case_exit in Hcase as [-> Hexit].
    by exists w.
Qed.

End Walk.

(** ** SquashLogs as seed, walk and finish *)

Section Squash.

Context (now : Time) (statuses : History) (cycleSize : Z).
Hypothesis Hc : (1 ≤ cycleSize)%Z.
Hypothesis Hlen : (cycleSize < len statuses)%Z.
Hypothesis Hmax : (len statuses ≤ max_len)%Z.

Lemma seed_buffer :
  seed (Z.to_nat cycleSize) 0 statuses []
  = Done (take (Z.to_nat cycleSize) statuses).
Proof. unfold len in Hlen. rewrite seed_spec by lia. by rewrite drop_0. Qed.

Lemma SquashLogs_unfold (fuel : nat) :
  SquashLogs fuel now statuses cycleSize
  = w ← walk_loop fuel statuses cycleSize
          (walk0 now cycleSize (take (Z.to_nat cycleSize) statuses));
    finish statuses cycleSize w.
Proof.
  unfold SquashLogs.
  destruct (Z.leb_spec (len statuses) cycleSize); [lia|].
  by rewrite seed_buffer.
Qed.

Lemma walk0_inv :
  walk_inv now statuses cycleSize
    (walk0 now cycleSize (take (Z.to_nat cycleSize) statuses)).
Proof.
  unfold walk_inv, walk0, len in *. simpl.
  rewrite length_take. repeat split; (lia || done).
Qed.

Lemma walks_inv (w : walk) :
  walks now statuses cycleSize w → walk_inv now statuses cycleSize w.
Proof.
  induction 1 as [buffer Hseed|w w' Hw IH Hstep].
  - rewrite seed_buffer in Hseed. injection Hseed as <-. apply walk0_inv.
  - destruct (walk_step_case now statuses cycleSize Hc Hlen Hmax w IH)
      as (r & Hr & Hcase).
    rewrite Hstep in Hr. injection Hr as <-. eapply proj1.
    eapply walk_case_inv; eassumption.
Qed.

Lemma finish_spec (w : walk) :
  walk_inv now statuses cycleSize w →
  finish statuses cycleSize w
  = Done (w_result w ++ w_buffer w ++ final_marker now cycleSize w
          ++ drop (Z.to_nat (w_i w) + 1) statuses).
Proof.
  intros ([Hi1 Hi2] & Hb & [Hr1 Hr2] & Hrs).
  unfold max_len in Hmax. unfold finish, final_marker, len in *.
  rewrite flush_buffer_spec by lia. simpl.
  rewrite drop_0, take_ge by lia.
  rewrite Hrs.
  replace (set_Info (repeatStatus0 now)
             (Sprintf_repeated cycleSize (w_repeat w)))
    with (marker now cycleSize (w_repeat w)) by done.
  rewrite Z.gtb_ltb.
  destruct (0 <? w_repeat w)%Z; simpl;
    (destruct (Z.ltb_spec (w_i w) (Z.of_nat (length statuses) - 1));
     [ rewrite Int_add_small
         by (unfold Int.in_range, Int.min_int, Int.max_int; lia);
       unfold slice_from, len; rewrite slice_in_range by (unfold len; lia);
       simpl; rewrite take_ge by (rewrite length_drop; lia);
       replace (Z.to_nat (w_i w + 1)) with (Z.to_nat (w_i w) + 1)%nat by lia;
       by rewrite <- ?app_assoc
     | rewrite (drop_ge statuses) by lia;
       by rewrite <- ?app_assoc, ?app_nil_r ]).
Qed.

(** A run with enough fuel returns: the output is what [finish] makes of a
    state in which the walk has stopped, and every invariant of the walk
    holds of that state. *)
Lemma SquashLogs_rule (P : walk → Prop) (fuel : nat) :
  (∀ w w', walk_inv now statuses cycleSize w → P w →
           walk_case now statuses cycleSize w (inl w') → P w') →
  P (walk0 now cycleSize (take (Z.to_nat cycleSize) statuses)) →
  (length statuses ≤ fuel)%nat →
  ∃ w, walk_loop fuel statuses cycleSize
         (walk0 now cycleSize (take (Z.to_nat cycleSize) statuses)) = Done w
       ∧ walk_inv now statuses cycleSize w ∧ P w
       ∧ (len statuses < w_i w + cycleSize)%Z
       ∧ SquashLogs fuel now statuses cycleSize
         = Done (w_result w ++ w_buffer w ++ final_marker now cycleSize w
                 ++ drop (Z.to_nat (w_i w) + 1) statuses).
Proof.
  intros Hstep H0 Hfuel.
  destruct (walk_loop_rule now statuses cycleSize Hc Hlen Hmax P Hstep fuel
              _ walk0_inv H0) as (w & Hloop & Hinv & HP & Hexit).
  { unfold len. simpl. lia. }
  exists w. do 4 (split; [done|]).
  rewrite SquashLogs_unfold, Hloop. simpl. by apply finish_spec.
Qed.

End Squash.

(** ** Which way an evaluation goes *)

Section WalkCases.

Context (now : Time) (statuses : History) (cycleSize : Z).
Hypothesis Hc : (1 ≤ cycleSize)%Z.
Hypothesis Hlen : (cycleSize < len statuses)%Z.
Hypothesis Hmax : (len statuses ≤ max_len)%Z.

Lemma walk_step_exit (w : walk) :
  walk_inv now statuses cycleSize w →
  (len statuses < w_i w + cycleSize)%Z →
  walk_step statuses cycleSize w = Done (inr w).
Proof.
  intros Hinv Hexit.
  destruct (walk_step_case now statuses cycleSize Hc Hlen Hmax w Hinv)
    as (r & -> & Hcase).
  inversion Hcase; subst; (done || lia).
Qed.

Lemma walk_step_repetition (w : walk) :
  walk_inv now statuses cycleSize w →
  (w_i w + cycleSize ≤ len statuses)%Z →
  repeats statuses cycleSize w →
  walk_step statuses cycleSize w
  = Done (inl {| w_i := w_i w + cycleSize;
                 w_repeat := w_repeat w + 1;
                 w_buffer := w_buffer w;
                 w_result := w_result w;
                 w_repeatStatus := w_repeatStatus w |}).
Proof.
  intros Hinv Hle Hrep.
  destruct (walk_step_case now statuses cycleSize Hc Hlen Hmax w Hinv)
    as (r & -> & Hcase).
  inversion Hcase; subst; (done || lia).
Qed.

Lemma walk_step_flush (w : walk) :
  walk_inv now statuses cycleSize w →
  (w_i w + cycleSize ≤ len statuses)%Z →
  ¬ repeats statuses cycleSize w →
  (0 < w_repeat w)%Z →
  walk_step statuses cycleSize w
  = Done (inl {| w_i := w_i w + cycleSize;
                 w_repeat := 0;
                 w_buffer := chunk statuses cycleSize w;
                 w_result := w_result w ++ w_buffer w
                             ++ [marker now cycleSize (w_repeat w)];
                 w_repeatStatus := marker now cycleSize (w_repeat w) |}).
Proof.
  intros Hinv Hle Hrep Hpos.
  destruct (walk_step_case now statuses cycleSize Hc Hlen Hmax w Hinv)
    as (r & -> & Hcase).
  inversion Hcase; subst; (done || lia).
Qed.

Lemma walk_step_push (w : walk) (x : DetailedStatus) :
  walk_inv now statuses cycleSize w →
  (w_i w + cycleSize ≤ len statuses)%Z →
  ¬ repeats statuses cycleSize w →
  w_repeat w = 0%Z →
  statuses !! Z.to_nat (w_i w) = Some x →
  walk_step statuses cycleSize w
  = Done (inl {| w_i := w_i w + 1;
                 w_repeat := 0;
                 w_buffer := drop 1 (w_buffer w) ++ [x];
                 w_result := w_result w ++ take 1 (w_buffer w);
                 w_repeatStatus := w_repeatStatus w |}).
Proof.
  intros Hinv Hle Hrep Hr0 Hx.
  destruct (walk_step_case now statuses cycleSize Hc Hlen Hmax w Hinv)
    as (r & -> & Hcase).
  inversion Hcase; subst; try (done || lia).
  congruence.
Qed.

End WalkCases.

Lemma walk_loop_S (fuel : nat) (statuses : History) (cycleSize : Z)
  (w : walk) :
  walk_loop (S fuel) statuses cycleSize w
  = r ← walk_step statuses cycleSize w;
    match r with
    | inl w' => walk_loop fuel statuses cycleSize w'
    | inr w' => Done w'
    end.
Proof. done. Qed.

(** ** Runs without repetition *)

Lemma plain_walk_step (now : Time) (statuses : History) (cycleSize : Z)
  (w w' : walk) :
  (1 ≤ cycleSize)%Z →
  walk_inv now statuses cycleSize w →
  plain_walk statuses cycleSize w →
  ¬ repeats statuses cycleSize w →
  walk_case now statuses cycleSize w (inl w') →
  plain_walk statuses cycleSize w'.
Proof.
  intros Hc ([Hi1 Hi2] & Hb & _) (Hr & Hi & Hres & Hbuf) Hno Hcase.
  inversion Hcase as [| |Hle Hrep|Hle Hrep Hpos|x Hle Hrep Hr0 Hx]; subst w'.
  - done.
  - lia.
  - unfold plain_walk; simpl.
    split; [done|]. split; [unfold len in *; lia|].
    set (c := Z.to_nat cycleSize) in *. set (i := Z.to_nat (w_i w)) in *.
    replace (Z.to_nat (w_i w + 1)) with (S i) by lia.
    replace (S i - c)%nat with (i - c + 1)%nat by (unfold len in *; lia).
    rewrite Hres, Hbuf. split.
    + rewrite take_take. replace (1 `min` c)%nat with 1%nat by lia.
      by rewrite take_take_drop.
    + assert (Hd : ∀ l : History,
                drop 1 (take c l) = take (c - 1) (drop 1 l)).
      { intros l. rewrite take_drop_commute. do 2 f_equal. lia. }
      rewrite Hd, drop_drop.
      replace (take c (drop (i - c + 1) statuses))
        with (take (S (c - 1)) (drop (i - c + 1) statuses))
        by (f_equal; lia).
      rewrite (take_S_r _ _ x); [done|].
      rewrite lookup_drop.
      by replace (i - c + 1 + (c - 1))%nat with i by (unfold len in *; lia).
Qed.

Lemma plain_not_repeats (now : Time) (statuses : History) (cycleSize : Z)
  (w : walk) :
  no_repetition statuses cycleSize →
  walk_inv now statuses cycleSize w →
  plain_walk statuses cycleSize w →
  (w_i w + cycleSize ≤ len statuses)%Z →
  ¬ repeats statuses cycleSize w.
Proof.
  intros Hno ([Hi1 Hi2] & _) (_ & _ & _ & Hbuf) Hle.
  unfold no_repetition in Hno. rewrite Forall_forall in Hno.
  unfold repeats, chunk, len in *. rewrite Hbuf.
  apply Hno. apply elem_of_seq. lia.
Qed.

Section ZeroRepetitions.

Context (now : Time) (statuses : History) (cycleSize : Z).
Hypothesis Hc : (1 ≤ cycleSize)%Z.
Hypothesis Hlen : (cycleSize < len statuses)%Z.
Hypothesis Hmax : (len statuses ≤ max_len)%Z.

Lemma plain_walk0 :
  plain_walk statuses cycleSize
    (walk0 now cycleSize (take (Z.to_nat cycleSize) statuses)).
Proof.
  unfold plain_walk, walk0; simpl.
  rewrite Nat.sub_diag, drop_0. repeat split; (lia || done).
Qed.

(** Without repetition in the input, every state of the run is plain. *)
Lemma walks_plain (w : walk) :
  no_repetition statuses cycleSize →
  walks now statuses cycleSize w →
  plain_walk statuses cycleSize w.
Proof.
  intros Hno. induction 1 as [buffer Hseed|w w' Hw IH Hstep].
  - rewrite seed_buffer in Hseed by done. injection Hseed as <-.
    apply plain_walk0.
  - pose proof (walks_inv now statuses cycleSize Hc Hlen Hmax w Hw) as Hinv.
    destruct (walk_step_case now statuses cycleSize Hc Hlen Hmax w Hinv)
      as (r & Hr & Hcase).
    rewrite Hstep in Hr. injection Hr as <-.
    apply (plain_walk_step now statuses cycleSize w w'); try done.
    inversion Hcase as [| |Hle ?|Hle ? ?|x Hle ? ? ?];
      by apply (plain_not_repeats now).
Qed.

(** When the run detects nothing, it goes through a plain state at every
    index from [cycleSize] to [len - cycleSize + 1]. *)
Lemma plain_reached (n : nat) :
  zero_repetitions now statuses cycleSize →
  (cycleSize + Z.of_nat n ≤ len statuses + 1 - cycleSize)%Z →
  ∃ w, walks now statuses cycleSize w
       ∧ plain_walk statuses cycleSize w
       ∧ w_i w = (cycleSize + Z.of_nat n)%Z.
Proof.
  intros Hzero. induction n as [|n IH]; intros Hn.
  - exists (walk0 now cycleSize (take (Z.to_nat cycleSize) statuses)).
    split; [apply walks_start; by apply seed_buffer|].
    split; [apply plain_walk0|]. simpl. lia.
  - destruct IH as (w & Hw & Hplain & Hi); [lia|].
    pose proof (walks_inv now statuses cycleSize Hc Hlen Hmax w Hw) as Hinv.
    assert (Hle : (w_i w + cycleSize ≤ len statuses)%Z) by lia.
    pose proof (Hzero w Hw Hle) as Hrep.
    destruct (lookup_lt_is_Some_2 statuses (Z.to_nat (w_i w))) as [x Hx].
    { unfold len in *. lia. }
    destruct Hplain as (Hr & Hplain).
    assert (Hp : plain_walk statuses cycleSize w) by done.
    pose proof (walk_step_push now statuses cycleSize Hc Hlen Hmax w x
                  Hinv Hle Hrep Hr Hx) as Hstep.
    eexists. split; [by apply (walks_next _ _ _ w _ Hw Hstep)|].
    split.
    + apply (plain_walk_step now statuses cycleSize w); try done.
      by apply walk_push.
    + simpl. lia.
Qed.

Lemma zero_repetitions_iff :
  zero_repetitions now statuses cycleSize ↔ no_repetition statuses cycleSize.
Proof.
  split.
  - intros Hzero. unfold no_repetition. apply Forall_forall.
    intros i Hi. apply elem_of_seq in Hi. unfold len in *.
    destruct (plain_reached (i - Z.to_nat cycleSize) Hzero)
      as (w & Hw & (_ & _ & _ & Hbuf) & Hwi); [unfold len; lia|].
    assert (Hle : (w_i w + cycleSize ≤ len statuses)%Z)
      by (unfold len; lia).
    pose proof (Hzero w Hw Hle) as Hrep.
    unfold repeats, chunk in Hrep. rewrite Hbuf in Hrep.
    by replace (Z.to_nat (w_i w)) with i in Hrep by lia.
  - intros Hno w Hw Hle.
    apply (plain_not_repeats now); try done.
    + by apply walks_inv.
    + by apply walks_plain.
Qed.

End ZeroRepetitions.

(** C1: on a run in which the walk detects zero repetitions, [SquashLogs]
    returns the input without the record at index
    [max cycleSize (len - cycleSize + 1)], the first record that the walk
    does not consume: the input itself when [cycleSize = 1], one record
    short when [cycleSize >= 2]. *)
Theorem SquashLogs_no_repetition (fuel : nat) (now : Time)
  (statuses : History) (cycleSize : Z) :
  (1 ≤ cycleSize)%Z →
  (cycleSize < len statuses)%Z →
  (len statuses ≤ max_len)%Z →
  zero_repetitions now statuses cycleSize →
  (length statuses ≤ fuel)%nat →
  SquashLogs fuel now statuses cycleSize
  = Done (delete (Z.to_nat (Z.max cycleSize (len statuses + 1 - cycleSize)))
            statuses)
  ∧ (cycleSize = 1%Z → SquashLogs fuel now statuses cycleSize = Done statuses)
  ∧ ((2 ≤ cycleSize)%Z →
     ∃ out, SquashLogs fuel now statuses cycleSize = Done out
            ∧ length out = (length statuses - 1)%nat
            ∧ out ≠ statuses).
Proof.
  intros Hc Hlen Hmax Hzero Hfuel.
  apply zero_repetitions_iff in Hzero; [|done..].
  destruct (SquashLogs_rule now statuses cycleSize Hc Hlen Hmax
              (plain_walk statuses cycleSize) fuel)
    as (w & _ & Hinv & HP & Hexit & Hout).
  { intros w w' Hinv HP Hcase.
    apply (plain_walk_step now statuses cycleSize w w'); try done.
    inversion Hcase as [| |Hle ?|Hle ? ?|x Hle ? ? ?];
      by apply (plain_not_repeats now). }
  { by apply plain_walk0. }
  { done. }
  destruct Hinv as ([Hi1 Hi2] & Hb & _).
  destruct HP as (Hr & Hi & Hres & Hbuf).
  unfold len in *.
  assert (Hfinal : w_i w = Z.max cycleSize
                             (Z.of_nat (length statuses) + 1 - cycleSize))
    by lia.
  assert (Heq : SquashLogs fuel now statuses cycleSize
                = Done (delete (Z.to_nat (w_i w)) statuses)).
  { rewrite Hout, Hres, Hbuf. unfold final_marker. rewrite Hr. simpl.
    rewrite app_assoc, take_take_drop, delete_take_drop.
    do 3 f_equal; lia. }
  rewrite <- Hfinal.
  split; [done|]. split.
  - intros ->. rewrite Heq, delete_take_drop.
    by rewrite take_ge, drop_ge, app_nil_r by lia.
  - intros H2. exists (delete (Z.to_nat (w_i w)) statuses).
    split; [done|].
    assert (Hl : length (delete (Z.to_nat (w_i w)) statuses)
                 = (length statuses - 1)%nat).
    { apply length_delete, lookup_lt_is_Some_2. lia. }
    split; [done|]. intros E. rewrite E in Hl. lia.
Qed.

Lemma SquashLogs_no_repetition_witness :
  zero_repetitions 99%Z ex4 2%Z
  ∧ SquashLogs 4 99 ex4 2
    = Done (delete (Z.to_nat (Z.max 2 (len ex4 + 1 - 2))) ex4)
  ∧ (2%Z = 1%Z → SquashLogs 4 99 ex4 2 = Done ex4)
  ∧ ((2 ≤ 2)%Z →
     ∃ out, SquashLogs 4 99 ex4 2 = Done out
            ∧ length out = (length ex4 - 1)%nat
            ∧ out ≠ ex4).
Proof.
  assert (Hzero : zero_repetitions 99%Z ex4 2%Z).
  { apply zero_repetitions_iff; [lia|by vm_compute..|].
    apply (bool_decide_unpack _). by vm_compute. }
  split; [exact Hzero|].
  apply (SquashLogs_no_repetition 4 99%Z ex4 2%Z);
    [lia|by vm_compute|by vm_compute|exact Hzero|simpl; lia].
Defined.

(** ** The scenario of eight records *)

#[local] Arguments walk_loop : simpl never.
#[local] Arguments walk_step : simpl never.
#[local] Arguments finish : simpl never.

Ltac walk_side :=
  first
    [ done
    | by vm_compute
    | unfold walk_inv, len; simpl; repeat split; (lia || done) ].

(** C2, as the code has it: on eight records of which the third and fourth
    repeat the first and second, while the fifth and sixth do not repeat
    them and the seventh and eighth do not repeat the fifth and sixth,
    [SquashLogs] with [cycleSize = 2] returns a sequence that starts with
    the first and second records, the marker "last 2 statuses repeated 1
    times", and the fifth, sixth and seventh records. *)
Theorem SquashLogs_scenario (fuel : nat) (now : Time)
  (r1 r2 r3 r4 r5 r6 r7 r8 : DetailedStatus) :
  same_entry r3 r1 → same_entry r4 r2 →
  ¬ (same_entry r5 r1 ∧ same_entry r6 r2) →
  ¬ (same_entry r7 r5 ∧ same_entry r8 r6) →
  ∃ tail,
    SquashLogs (4 + fuel) now [r1; r2; r3; r4; r5; r6; r7; r8] 2
    = Done ([r1; r2; marker now 2 1; r5; r6; r7] ++ tail)
    ∧ Info (marker now 2 1) = "last 2 statuses repeated 1 times".
Proof.
  intros H31 H42 H56 H78. exists []. split; [|done].
  set (statuses := [r1; r2; r3; r4; r5; r6; r7; r8]).
  assert (Hc : (1 ≤ 2)%Z) by lia.
  assert (Hlen : (2 < len statuses)%Z) by (by vm_compute).
  assert (Hmax : (len statuses ≤ max_len)%Z) by (by vm_compute).
  rewrite (SquashLogs_unfold now statuses 2); [|done..].
  change (4 + fuel)%nat with (S (S (S (S fuel)))).
  rewrite walk_loop_S.
  rewrite (walk_step_repetition now statuses 2); [|try walk_side..].
  2:{ unfold repeats, chunk. simpl. by repeat apply Forall2_cons_2. }
  cbn. rewrite walk_loop_S.
  rewrite (walk_step_flush now statuses 2); [|try walk_side..].
  2:{ unfold repeats, chunk. simpl. intros HF.
      apply Forall2_cons in HF as [? HF].
      apply Forall2_cons in HF as [? _]. by apply H56. }
  cbn. rewrite walk_loop_S.
  rewrite (walk_step_push now statuses 2) with (x := r7); [|try walk_side..].
  2:{ unfold repeats, chunk. simpl. intros HF.
      apply Forall2_cons in HF as [? HF].
      apply Forall2_cons in HF as [? _]. by apply H78. }
  cbn. rewrite walk_loop_S.
  rewrite (walk_step_exit now statuses 2); [|try walk_side..].
  cbn.
  rewrite (finish_spec now statuses 2); [|try walk_side..].
  done.
Qed.

Lemma SquashLogs_scenario_witness :
  ∃ tail,
    SquashLogs (4 + 4) 99 ex8 2
    = Done ([rec1; rec2; marker 99 2 1; rec5; rec6; rec7] ++ tail)
    ∧ Info (marker 99 2 1) = "last 2 statuses repeated 1 times".
Proof.
  apply (SquashLogs_scenario 4 99%Z rec1 rec2 rec3 rec4 rec5 rec6 rec7 rec8).
  - by vm_compute.
  - by vm_compute.
  - intros [[H _] _]. by vm_compute in H.
  - intros [[H _] _]. by vm_compute in H.
Defined.

Lemma SquashLogs_scenario_counterexample :
  same_entry rec3 rec1 ∧ same_entry rec4 rec2
  ∧ SquashLogs 8 99 ex8 2
    = Done [rec1; rec2; marker 99 2 1; rec5; rec6; rec7]
  ∧ [rec1; rec2; marker 99 2 1; rec5; rec6; rec7]
    ≠ [rec1; rec2; rec3; rec4; marker 99 2 1; rec7; rec8].
Proof.
  split; [by vm_compute|]. split; [by vm_compute|].
  split; [by vm_compute|]. intros H. by vm_compute in H.
Qed.

(** ** The records after the last full chunk *)

(** Whatever the walk has seen, the output ends with the records after
    index [i], the index at which the walk stopped: of the [len - i] records
    from index [i] on, the first is left out. *)
Lemma SquashLogs_leftover (fuel : nat) (now : Time) (statuses : History)
  (cycleSize : Z) :
  (1 ≤ cycleSize)%Z →
  (cycleSize < len statuses)%Z →
  (len statuses ≤ max_len)%Z →
  (length statuses ≤ fuel)%nat →
  ∃ w, walk_loop fuel statuses cycleSize
         (walk0 now cycleSize (take (Z.to_nat cycleSize) statuses)) = Done w
       ∧ (0 ≤ w_i w ≤ len statuses)%Z
       ∧ (len statuses < w_i w + cycleSize)%Z
       ∧ SquashLogs fuel now statuses cycleSize
         = Done (w_result w ++ w_buffer w ++ final_marker now cycleSize w
                 ++ drop 1 (drop (Z.to_nat (w_i w)) statuses)).
Proof.
  intros Hc Hlen Hmax Hfuel.
  destruct (SquashLogs_rule now statuses cycleSize Hc Hlen Hmax
              (fun _ => True) fuel)
    as (w & Hloop & Hinv & _ & Hexit & Hout); [done..|].
  exists w. split; [done|].
  destruct Hinv as ([Hi1 Hi2] & _).
  split; [lia|]. split; [done|].
  by rewrite Hout, drop_drop.
Qed.

(** C3, at an input with two records after the last full chunk: of the
    leftover records [d] and [e], [d] is not in the output. *)
Theorem SquashLogs_drops_first_leftover (fuel : nat) (now : Time)
  (a b c d e : DetailedStatus) :
  SquashLogs (S fuel) now [a; b; c; d; e] 3 = Done [a; b; c; e].
Proof.
  set (statuses := [a; b; c; d; e]).
  assert (Hc : (1 ≤ 3)%Z) by lia.
  assert (Hlen : (3 < len statuses)%Z) by (by vm_compute).
  assert (Hmax : (len statuses ≤ max_len)%Z) by (by vm_compute).
  rewrite (SquashLogs_unfold now statuses 3); [|done..].
  rewrite walk_loop_S.
  rewrite (walk_step_exit now statuses 3); [|try walk_side..].
  cbn.
  rewrite (finish_spec now statuses 3); [|try walk_side..].
  done.
Qed.

(** ** Calls outside the precondition *)

Lemma walk_loop_zero (statuses : History) (fuel : nat) : ∀ w : walk,
  statuses ≠ [] → w_i w = 0%Z →
  walk_loop fuel statuses 0 w = OutOfFuel.
Proof.
  induction fuel as [|fuel IH]; intros w Hne Hi; [done|].
  rewrite walk_loop_S. unfold walk_step. rewrite Hi.
  assert (0 < len statuses)%Z as Hpos
    by (unfold len; destruct statuses; [done|simpl; lia]).
  destruct (Z.ltb_spec 0 (len statuses)); [|lia]. simpl negb. cbv iota.
  change (Int.add 0 0) with 0%Z.
  destruct (Z.gtb_spec 0 (len statuses)); [lia|].
  rewrite slice_in_range by lia. cbn.
  apply IH; done.
Qed.

Lemma SquashLogs_negative (fuel : nat) (now : Time) (statuses : History)
  (cycleSize : Z) :
  Int.in_range cycleSize → (cycleSize < 0)%Z →
  SquashLogs (S fuel) now statuses cycleSize = Panic.
Proof.
  intros [Hmin _] Hneg. unfold Int.min_int in Hmin.
  assert (0 ≤ len statuses)%Z as Hl by (unfold len; lia).
  unfold SquashLogs.
  destruct (Z.leb_spec (len statuses) cycleSize); [lia|].
  replace (Z.to_nat cycleSize) with 0%nat by lia. cbn.
  rewrite walk_loop_S. unfold walk_step, walk0. cbn.
  destruct (Z.ltb_spec cycleSize (len statuses)); [|lia]. cbn.
  destruct (Z.gtb_spec (Int.add cycleSize cycleSize) (len statuses))
    as [Hwrap|_].
  - cbn. unfold finish. cbn.
    replace (Z.to_nat cycleSize) with 0%nat by lia. cbn.
    assert (cycleSize ≠ (-1)%Z) as Hne.
    { intros ->. change (Int.add (-1) (-1)) with (-2)%Z in Hwrap. lia. }
    destruct (Z.ltb_spec cycleSize (len statuses - 1)); [|lia].
    rewrite Int_add_small
      by (unfold Int.in_range, Int.min_int, Int.max_int; lia).
    unfold slice_from. by rewrite slice_negative by lia.
  - by rewrite slice_negative by lia.
Qed.

Lemma SquashLogs_zero (fuel : nat) (now : Time) (statuses : History) :
  statuses ≠ [] → SquashLogs fuel now statuses 0 = OutOfFuel.
Proof.
  intros Hne. unfold SquashLogs.
  destruct (Z.leb_spec (len statuses) 0) as [Hle|_].
  { unfold len in Hle. destruct statuses; [done|simpl in Hle; lia]. }
  change (Z.to_nat 0) with 0%nat. cbn. by rewrite walk_loop_zero.
Qed.

Lemma walk_step_negative (now : Time) (statuses : History) (cycleSize : Z) :
  Int.in_range cycleSize → (cycleSize < 0)%Z →
  walk_step statuses cycleSize (walk0 now cycleSize []) = Panic
  ∨ (walk_step statuses cycleSize (walk0 now cycleSize [])
     = Done (inr (walk0 now cycleSize []))
     ∧ (len statuses < Int.add cycleSize cycleSize)%Z
     ∧ finish statuses cycleSize (walk0 now cycleSize []) = Panic).
Proof.
  intros [Hmin _] Hneg. unfold Int.min_int in Hmin.
  assert (0 ≤ len statuses)%Z as Hl by (unfold len; lia).
  unfold walk_step, walk0. cbn.
  destruct (Z.ltb_spec cycleSize (len statuses)); [|lia]. cbn.
  destruct (Z.gtb_spec (Int.add cycleSize cycleSize) (len statuses))
    as [Hwrap|_].
  - right. split; [done|]. split; [lia|].
    unfold finish. cbn.
    replace (Z.to_nat cycleSize) with 0%nat by lia. cbn.
    assert (cycleSize ≠ (-1)%Z) as Hne.
    { intros ->. change (Int.add (-1) (-1)) with (-2)%Z in Hwrap. lia. }
    destruct (Z.ltb_spec cycleSize (len statuses - 1)); [|lia].
    rewrite Int_add_small
      by (unfold Int.in_range, Int.min_int, Int.max_int; lia).
    unfold slice_from. by rewrite slice_negative by lia.
  - left. by rewrite slice_negative by lia.
Qed.

Lemma walk_step_negative_small (now : Time) (statuses : History)
  (cycleSize : Z) :
  (- 2 ^ 62 ≤ cycleSize < 0)%Z →
  walk_step statuses cycleSize (walk0 now cycleSize []) = Panic.
Proof.
  intros [Hmin Hneg].
  assert (0 ≤ len statuses)%Z as Hl by (unfold len; lia).
  unfold walk_step, walk0. cbn.
  destruct (Z.ltb_spec cycleSize (len statuses)); [|lia]. cbn.
  rewrite Int_add_small
    by (unfold Int.in_range, Int.min_int, Int.max_int; lia).
  destruct (Z.gtb_spec (cycleSize + cycleSize) (len statuses)); [lia|].
  by rewrite slice_negative by lia.
Qed.

(** C9, as the code has it: [push] on an empty window panics at once;
    [SquashLogs] with a negative [cycleSize] panics on every input before
    it completes one iteration of the loop: at the slice
    [statuses[i:i+cycleSize]] of the first iteration when
    [-2^62 <= cycleSize], and below that either there or, when
    [i+cycleSize] wraps around to more than [len(statuses)] and the loop
    breaks at once, at [statuses[i+1:]] after the loop; with
    [cycleSize = 0] and a non-empty input the call is still running
    whatever the fuel: it neither panics nor returns. *)
Theorem SquashLogs_outside_precondition :
  (∀ new, push [] new = Panic)
  ∧ (∀ fuel now statuses cycleSize,
       Int.in_range cycleSize → (cycleSize < 0)%Z →
       SquashLogs (S fuel) now statuses cycleSize = Panic
       ∧ (walk_step statuses cycleSize (walk0 now cycleSize []) = Panic
          ∨ (walk_step statuses cycleSize (walk0 now cycleSize [])
             = Done (inr (walk0 now cycleSize []))
             ∧ (len statuses < Int.add cycleSize cycleSize)%Z
             ∧ finish statuses cycleSize (walk0 now cycleSize []) = Panic))
       ∧ ((- 2 ^ 62 ≤ cycleSize)%Z →
          walk_step statuses cycleSize (walk0 now cycleSize []) = Panic))
  ∧ (∀ fuel now statuses,
       statuses ≠ [] → SquashLogs fuel now statuses 0 = OutOfFuel).
Proof.
  split; [done|]. split; [|exact SquashLogs_zero].
  intros fuel now statuses cycleSize Hrange Hneg.
  split; [by apply SquashLogs_negative|].
  split; [by apply walk_step_negative|].
  intros Hmin. by apply walk_step_negative_small.
Qed.

Lemma SquashLogs_zero_counterexample :
  (0 < len ex3)%Z ∧ ∀ fuel : nat, SquashLogs fuel 99 ex3 0 = OutOfFuel.
Proof.
  split; [by vm_compute|]. intros fuel.
  by apply SquashLogs_zero.
Qed.

(** ** The repetition markers *)

Lemma Forall_input (statuses : History) :
  Forall (fun x => x ∈ statuses) statuses.
Proof. by apply Forall_forall. Qed.

Lemma Forall_input_or_marker (now : Time) (statuses l : History)
  (cycleSize : Z) :
  Forall (fun x => x ∈ statuses) l →
  Forall (input_or_marker now statuses cycleSize) l.
Proof. intros H. eapply Forall_impl; [exact H|]. intros x Hx. by left. Qed.

Lemma from_input_step (now : Time) (statuses : History) (cycleSize : Z)
  (w w' : walk) :
  from_input now statuses cycleSize w →
  walk_case now statuses cycleSize w (inl w') →
  from_input now statuses cycleSize w'.
Proof.
  intros [Hres Hbuf] Hcase.
  inversion Hcase as [| |Hle Hrep|Hle Hrep Hpos|x Hle Hrep Hr0 Hx]; subst w';
    unfold from_input; simpl.
  - done.
  - split.
    + apply Forall_app. split; [done|]. apply Forall_app. split.
      * by apply Forall_input_or_marker.
      * apply Forall_singleton. right. by exists (w_repeat w).
    + unfold chunk. apply Forall_take, Forall_drop, Forall_input.
  - split.
    + apply Forall_app. split; [done|].
      by apply Forall_input_or_marker, Forall_take.
    + apply Forall_app. split; [by apply Forall_drop|].
      apply Forall_singleton. by eapply list_elem_of_lookup_2.
Qed.

Section Markers.

Context (now : Time) (statuses : History) (cycleSize : Z).
Hypothesis Hc : (1 ≤ cycleSize)%Z.
Hypothesis Hlen : (cycleSize < len statuses)%Z.
Hypothesis Hmax : (len statuses ≤ max_len)%Z.

Lemma walk_loop_walks (fuel : nat) : ∀ w w' : walk,
  walks now statuses cycleSize w →
  walk_loop fuel statuses cycleSize w = Done w' →
  walks now statuses cycleSize w'.
Proof.
  induction fuel as [|fuel IH]; intros w w' Hw Hloop; [done|].
  rewrite walk_loop_S in Hloop.
  pose proof (walks_inv now statuses cycleSize Hc Hlen Hmax w Hw) as Hinv.
  destruct (walk_step_case now statuses cycleSize Hc Hlen Hmax w Hinv)
    as (r & Hr & Hcase).
  rewrite Hr in Hloop. cbn in Hloop. destruct r as [w1|w1].
  - apply (IH w1 w'); [|done]. by apply (walks_next _ _ _ w w1).
  - apply walk_case_exit in Hcase as [-> _]; [|done..].
    by injection Hloop as <-.
Qed.

Lemma walks_walk0 :
  walks now statuses cycleSize
    (walk0 now cycleSize (take (Z.to_nat cycleSize) statuses)).
Proof. apply walks_start. by apply seed_buffer. Qed.

Lemma SquashLogs_from_input (fuel : nat) :
  (length statuses ≤ fuel)%nat →
  ∃ out, SquashLogs fuel now statuses cycleSize = Done out
         ∧ Forall (input_or_marker now statuses cycleSize) out.
Proof.
  intros Hfuel.
  destruct (SquashLogs_rule now statuses cycleSize Hc Hlen Hmax
              (from_input now statuses cycleSize) fuel)
    as (w & _ & _ & [Hres Hbuf] & _ & Hout).
  { intros w w' _. apply from_input_step. }
  { split; [constructor|]. apply Forall_take, Forall_input. }
  { done. }
  eexists. split; [exact Hout|].
  apply Forall_app. split; [done|]. apply Forall_app. split.
  { by apply Forall_input_or_marker. }
  apply Forall_app. split.
  - unfold final_marker. destruct (Z.ltb_spec 0 (w_repeat w)); [|constructor].
    apply Forall_singleton. right. by exists (w_repeat w).
  - apply Forall_input_or_marker, Forall_drop, Forall_input.
Qed.

End Markers.

Section Repetitions.

Context (now : Time) (statuses : History) (cycleSize : Z).
Hypothesis Hc : (1 ≤ cycleSize)%Z.
Hypothesis Hlen : (cycleSize < len statuses)%Z.
Hypothesis Hmax : (len statuses ≤ max_len)%Z.

(** [k] chunks that repeat the buffer take [k] evaluations of the loop, which
    only count them. *)
Lemma walk_repeats (k : nat) : ∀ (fuel : nat) (w : walk),
  walk_inv now statuses cycleSize w →
  (∀ j, (j < k)%nat →
        Forall2 same_entry
          (take (Z.to_nat cycleSize)
             (drop (Z.to_nat (w_i w) + j * Z.to_nat cycleSize) statuses))
          (w_buffer w)) →
  (w_i w + Z.of_nat k * cycleSize ≤ len statuses)%Z →
  walk_loop (k + fuel) statuses cycleSize w
  = walk_loop fuel statuses cycleSize (advance cycleSize k w)
  ∧ walk_inv now statuses cycleSize (advance cycleSize k w).
Proof.
  induction k as [|k IH]; intros fuel w Hinv Hrep Hle.
  { assert (advance cycleSize 0 w = w) as ->; [|done].
    destruct w. unfold advance. simpl. f_equal; lia. }
  pose proof Hinv as ([Hi1 Hi2] & _).
  assert (Hle1 : (w_i w + cycleSize ≤ len statuses)%Z) by nia.
  assert (Hrep0 : repeats statuses cycleSize w).
  { unfold repeats, chunk. specialize (Hrep 0%nat ltac:(lia)).
    by rewrite Nat.add_0_r in Hrep. }
  change (S k + fuel)%nat with (S (k + fuel)).
  rewrite walk_loop_S.
  rewrite (walk_step_repetition now statuses cycleSize) by done.
  cbn.
  set (w1 := {| w_i := w_i w + cycleSize; w_repeat := w_repeat w + 1;
                w_buffer := w_buffer w; w_result := w_result w;
                w_repeatStatus := w_repeatStatus w |}).
  assert (Hinv1 : walk_inv now statuses cycleSize w1).
  { eapply proj1, (walk_case_inv now statuses cycleSize); [done..|].
    by apply walk_repetition. }
  assert (Hadv : advance cycleSize k w1 = advance cycleSize (S k) w).
  { unfold advance, w1. simpl. f_equal; lia. }
  rewrite <- Hadv. apply IH; [done| |simpl; nia].
  intros j Hj. simpl. specialize (Hrep (S j) ltac:(lia)).
  by replace (Z.to_nat (w_i w + cycleSize) + j * Z.to_nat cycleSize)%nat
    with (Z.to_nat (w_i w) + S j * Z.to_nat cycleSize)%nat by lia.
Qed.

(** What the walk has put out or holds in the buffer stays at the head of
    the output. *)
Lemma walk_keeps_output (fuel : nat) (w : walk) :
  walk_inv now statuses cycleSize w →
  (len statuses - w_i w < Z.of_nat fuel)%Z →
  ∃ w', walk_loop fuel statuses cycleSize w = Done w'
        ∧ walk_inv now statuses cycleSize w'
        ∧ (w_result w ++ w_buffer w) `prefix_of` (w_result w' ++ w_buffer w').
Proof.
  intros Hinv Hfuel.
  assert (Hstep : ∀ w1 w2, walk_inv now statuses cycleSize w1 →
            (w_result w ++ w_buffer w)
              `prefix_of` (w_result w1 ++ w_buffer w1) →
            walk_case now statuses cycleSize w1 (inl w2) →
            (w_result w ++ w_buffer w)
              `prefix_of` (w_result w2 ++ w_buffer w2)); last first.
  { destruct (walk_loop_rule now statuses cycleSize Hc Hlen Hmax
                (fun w' => (w_result w ++ w_buffer w)
                           `prefix_of` (w_result w' ++ w_buffer w'))
                Hstep fuel w Hinv (reflexivity _) Hfuel)
      as (w' & Hloop & Hinv' & Hpre & _).
    by exists w'. }
  intros w1 w2 _ Hpre Hcase.
  etransitivity; [exact Hpre|].
  inversion Hcase as [| |Hle Hrep|Hle Hrep Hpos|x Hle Hrep Hr0 Hx]; subst w2;
    simpl.
  - done.
  - rewrite <- !app_assoc, (app_assoc (w_result w1)). by apply prefix_app_r.
  - rewrite <- !app_assoc, (app_assoc (take 1 _)), take_drop.
    rewrite (app_assoc (w_result w1)). by apply prefix_app_r.
Qed.

Lemma walk0_repeats (k : nat) (fuel : nat) :
  repeats_first statuses cycleSize k →
  ((k + 1) * Z.to_nat cycleSize ≤ length statuses)%nat →
  walk_loop (k + fuel) statuses cycleSize
    (walk0 now cycleSize (take (Z.to_nat cycleSize) statuses))
  = walk_loop fuel statuses cycleSize
      (advance cycleSize k
         (walk0 now cycleSize (take (Z.to_nat cycleSize) statuses)))
  ∧ walk_inv now statuses cycleSize
      (advance cycleSize k
         (walk0 now cycleSize (take (Z.to_nat cycleSize) statuses))).
Proof.
  intros Hrep Hk. unfold repeats_first in Hrep.
  rewrite Forall_forall in Hrep.
  apply walk_repeats.
  - by apply walk0_inv.
  - intros j Hj. simpl.
    replace (Z.to_nat cycleSize + j * Z.to_nat cycleSize)%nat
      with (S j * Z.to_nat cycleSize)%nat by lia.
    apply Hrep, elem_of_seq. lia.
  - unfold len. simpl. nia.
Qed.

(** A run of [k] repetitions ended by a full chunk: the output starts with
    the first chunk, the marker that counts [k], and the chunk that ended
    the run. *)
Lemma SquashLogs_run_ended (fuel k : nat) :
  (1 ≤ k)%nat →
  run_ended statuses cycleSize k →
  (length statuses ≤ fuel)%nat →
  ∃ tail,
    SquashLogs fuel now statuses cycleSize
    = Done (take (Z.to_nat cycleSize) statuses
            ++ [marker now cycleSize (Z.of_nat k)]
            ++ take (Z.to_nat cycleSize)
                 (drop ((k + 1) * Z.to_nat cycleSize) statuses)
            ++ tail).
Proof.
  intros Hk (Hl & Hrep & Hdiff) Hfuel.
  rewrite SquashLogs_unfold by done.
  replace fuel with (k + S (fuel - k - 1))%nat by nia.
  destruct (walk0_repeats k (S (fuel - k - 1)) Hrep ltac:(nia))
    as [-> Hinv1].
  set (w1 := advance cycleSize k
               (walk0 now cycleSize (take (Z.to_nat cycleSize) statuses)))
    in *.
  assert (Hi1 : Z.to_nat (w_i w1) = ((k + 1) * Z.to_nat cycleSize)%nat)
    by (simpl; nia).
  rewrite walk_loop_S.
  rewrite (walk_step_flush now statuses cycleSize); try done.
  2:{ unfold len. simpl. nia. }
  2:{ unfold repeats, chunk. by rewrite Hi1. }
  2:{ simpl. lia. }
  cbn.
  set (w2 := {| w_i := _ |}).
  assert (Hinv2 : walk_inv now statuses cycleSize w2).
  { assert (Hcase : walk_case now statuses cycleSize w1 (inl w2)).
    { apply (walk_flush now statuses cycleSize w1).
      - unfold len. simpl. nia.
      - unfold repeats, chunk. by rewrite Hi1.
      - simpl. lia. }
    eapply proj1, walk_case_inv; [..|exact Hcase]; done. }
  destruct (walk_keeps_output (fuel - k - 1) w2 Hinv2)
    as (w' & -> & Hinv' & [t Ht]).
  { unfold len. simpl. nia. }
  cbn. rewrite (finish_spec now statuses cycleSize) by done.
  rewrite app_assoc, Ht. simpl. unfold chunk. rewrite Hi1.
  rewrite Z.add_0_l. simpl.
  exists (t ++ final_marker now cycleSize w'
            ++ drop (Z.to_nat (w_i w') + 1) statuses).
  by rewrite <- !app_assoc.
Qed.

(** A run of [k] repetitions after which no full chunk is left: the output
    is the first chunk, the marker that counts [k], and the records after
    the first of those left. *)
Lemma SquashLogs_run_at_end (fuel k : nat) :
  (1 ≤ k)%nat →
  run_at_end statuses cycleSize k →
  (length statuses ≤ fuel)%nat →
  SquashLogs fuel now statuses cycleSize
  = Done (take (Z.to_nat cycleSize) statuses
          ++ [marker now cycleSize (Z.of_nat k)]
          ++ drop ((k + 1) * Z.to_nat cycleSize + 1) statuses).
Proof.
  intros Hk ([Hl1 Hl2] & Hrep) Hfuel.
  rewrite SquashLogs_unfold by done.
  replace fuel with (k + S (fuel - k - 1))%nat by nia.
  destruct (walk0_repeats k (S (fuel - k - 1)) Hrep ltac:(nia))
    as [-> Hinv1].
  set (w1 := advance cycleSize k
               (walk0 now cycleSize (take (Z.to_nat cycleSize) statuses)))
    in *.
  assert (Hi1 : Z.to_nat (w_i w1) = ((k + 1) * Z.to_nat cycleSize)%nat)
    by (simpl; nia).
  rewrite walk_loop_S.
  rewrite (walk_step_exit now statuses cycleSize); try done.
  2:{ unfold len. simpl. nia. }
  cbn. rewrite (finish_spec now statuses cycleSize) by done.
  rewrite Hi1. unfold final_marker. simpl.
  destruct (Z.ltb_spec 0 (0 + Z.of_nat k)); [|lia].
  by rewrite Z.add_0_l.
Qed.

End Repetitions.

(** C6, as the code has it: a marker has status [Idle], the info "last
    <cycleSize> statuses repeated <repeat> times" with both numbers in
    decimal, and the clock reading of the call as its [Since]; every record
    of the output is a record of the input or such a marker with a positive
    count. When a chunk does not repeat the buffer and the count is
    positive, the walk appends the records that the chunk pushes out of the
    buffer and then the marker with that count, and the chunk stays in the
    buffer: after a run of [k] repetitions of the first chunk that a full
    chunk ends, the output starts with the first chunk, the marker that
    counts [k], and the chunk that ended the run. When the walk stops with
    a positive count, the marker with that count follows the flush of the
    buffer: after a run of [k] repetitions with no full chunk left, the
    output is the first chunk, the marker that counts [k], and the tail of
    the input. *)
Theorem SquashLogs_markers (now : Time) (statuses : History) (cycleSize : Z) :
  (1 ≤ cycleSize)%Z →
  (cycleSize < len statuses)%Z →
  (len statuses ≤ max_len)%Z →
  (∀ r, Status (marker now cycleSize r) = Idle
        ∧ Info (marker now cycleSize r)
          = "last " +:+ fmt_d cycleSize +:+ " statuses repeated "
            +:+ fmt_d r +:+ " times"
        ∧ Since (marker now cycleSize r) = Some now)
  ∧ Info (marker now 2 1) = "last 2 statuses repeated 1 times"
  ∧ Info (marker now 10 307) = "last 10 statuses repeated 307 times"
  ∧ (∀ fuel, (length statuses ≤ fuel)%nat →
       ∃ out, SquashLogs fuel now statuses cycleSize = Done out
              ∧ Forall (input_or_marker now statuses cycleSize) out)
  ∧ (∀ w, walk_inv now statuses cycleSize w →
       (w_i w + cycleSize ≤ len statuses)%Z →
       ¬ repeats statuses cycleSize w →
       (0 < w_repeat w)%Z →
       walk_step statuses cycleSize w
       = Done (inl {| w_i := w_i w + cycleSize;
                      w_repeat := 0;
                      w_buffer := chunk statuses cycleSize w;
                      w_result := w_result w ++ w_buffer w
                                  ++ [marker now cycleSize (w_repeat w)];
                      w_repeatStatus :=
                        marker now cycleSize (w_repeat w) |}))
  ∧ (∀ w, walk_inv now statuses cycleSize w →
       (0 < w_repeat w)%Z →
       finish statuses cycleSize w
       = Done (w_result w ++ w_buffer w
               ++ [marker now cycleSize (w_repeat w)]
               ++ drop (Z.to_nat (w_i w) + 1) statuses))
  ∧ (∀ fuel k, (1 ≤ k)%nat →
       run_ended statuses cycleSize k →
       (length statuses ≤ fuel)%nat →
       ∃ tail,
         SquashLogs fuel now statuses cycleSize
         = Done (take (Z.to_nat cycleSize) statuses
                 ++ [marker now cycleSize (Z.of_nat k)]
                 ++ take (Z.to_nat cycleSize)
                      (drop ((k + 1) * Z.to_nat cycleSize) statuses)
                 ++ tail))
  ∧ (∀ fuel k, (1 ≤ k)%nat →
       run_at_end statuses cycleSize k →
       (length statuses ≤ fuel)%nat →
       SquashLogs fuel now statuses cycleSize
       = Done (take (Z.to_nat cycleSize) statuses
               ++ [marker now cycleSize (Z.of_nat k)]
               ++ drop ((k + 1) * Z.to_nat cycleSize + 1) statuses)).
Proof.
  intros Hc Hlen Hmax.
  split; [done|]. split; [done|]. split; [done|].
  split; [by apply SquashLogs_from_input|].
  split.
  { intros w Hinv Hle Hrep Hpos. by apply (walk_step_flush now). }
  split.
  { intros w Hinv Hpos. rewrite (finish_spec now) by done.
    unfold final_marker. by destruct (Z.ltb_spec 0 (w_repeat w)); [|lia]. }
  split.
  { intros fuel k Hk Hrun Hfuel. by apply SquashLogs_run_ended. }
  intros fuel k Hk Hrun Hfuel. by apply SquashLogs_run_at_end.
Qed.

Lemma SquashLogs_markers_witness :
  (∃ tail,
     SquashLogs 8 99 ex8 2
     = Done ([rec1; rec2] ++ [marker 99 2 1] ++ [rec5; rec6] ++ tail))
  ∧ SquashLogs 4 99 [rec1; rec2; rec3; rec4] 2
    = Done ([rec1; rec2] ++ [marker 99 2 1] ++ []).
Proof.
  split.
  - destruct (SquashLogs_markers 99%Z ex8 2%Z)
      as (_ & _ & _ & _ & _ & _ & Hended & _);
      [lia|by vm_compute..|].
    apply (Hended 8%nat 1%nat); [lia| |simpl; lia].
    split; [simpl; lia|].
    split; apply (bool_decide_unpack _); by vm_compute.
  - destruct (SquashLogs_markers 99%Z [rec1; rec2; rec3; rec4] 2%Z)
      as (_ & _ & _ & _ & _ & _ & _ & Hend);
      [lia|by vm_compute..|].
    apply (Hend 4%nat 1%nat); [lia| |simpl; lia].
    split; [simpl; lia|].
    apply (bool_decide_unpack _); by vm_compute.
Defined.

Lemma SquashLogs_marker_counterexample :
  SquashLogs 8 99 ex8 2
  = Done [rec1; rec2; marker 99 2 1; rec5; rec6; rec7]
  ∧ same_entry rec3 rec1 ∧ same_entry rec4 rec2
  ∧ ¬ Forall2 same_entry [rec5; rec6] [rec1; rec2]
  ∧ ¬ (∃ pre post,
         [rec1; rec2; marker 99 2 1; rec5; rec6; rec7]
         = pre ++ [rec5; rec6; marker 99 2 1] ++ post).
Proof.
  split; [by vm_compute|]. split; [by vm_compute|]. split; [by vm_compute|].
  split.
  { intros H. apply Forall2_cons in H as [[H _] _]. by vm_compute in H. }
  intros (pre & post & H).
  assert (Hne : marker 99 2 1 ≠ rec7) by (intros E; by vm_compute in E).
  assert (H12 : rec1 ≠ rec5 ∧ rec2 ≠ rec5 ∧ marker 99 2 1 ≠ rec5
                ∧ rec6 ≠ rec5 ∧ rec7 ≠ rec5 ∧ rec5 ≠ rec6).
  { repeat split; intros E; by vm_compute in E. }
  destruct H12 as (? & ? & ? & ? & ? & ?).
  do 6 (destruct pre as [|? pre]; simpl in H; [congruence|];
        injection H as <- H).
  by destruct pre.
Qed.

(** ** Detection looks at status and info only *)

#[global] Instance same_entry_equiv : Equivalence same_entry.
Proof.
  unfold same_entry. split.
  - by intros x.
  - intros x y [-> ->]. done.
  - intros x y z [-> ->] [-> ->]. done.
Qed.

Lemma Forall2_same_entry_swap (l1 l2 k1 k2 : History) :
  Forall2 same_entry l1 l2 → Forall2 same_entry k1 k2 →
  Forall2 same_entry l1 k1 → Forall2 same_entry l2 k2.
Proof.
  intros H12 K12 H.
  assert (Forall2 same_entry l2 l1) as H21 by by symmetry.
  exact (transitivity (transitivity H21 H) K12).
Qed.

Section SameInputs.

Context (now : Time) (xs ys : History) (cycleSize : Z).
Hypothesis Hxy : Forall2 same_entry xs ys.
Hypothesis Hc : (1 ≤ cycleSize)%Z.
Hypothesis Hlen : (cycleSize < len xs)%Z.
Hypothesis Hmax : (len xs ≤ max_len)%Z.

Lemma same_len : len xs = len ys.
Proof. unfold len. by rewrite (Forall2_length _ _ _ Hxy). Qed.

Lemma same_chunk (w1 w2 : walk) :
  w_i w1 = w_i w2 →
  Forall2 same_entry (chunk xs cycleSize w1) (chunk ys cycleSize w2).
Proof. intros E. unfold chunk. rewrite E. by apply Forall2_take, Forall2_drop. Qed.

Lemma same_repeats (w1 w2 : walk) :
  same_walk w1 w2 →
  repeats xs cycleSize w1 ↔ repeats ys cycleSize w2.
Proof.
  intros (Hi & _ & Hbuf & _). unfold repeats.
  pose proof (same_chunk w1 w2 Hi) as Hch. split; intros H.
  - by apply (Forall2_same_entry_swap _ _ _ _ Hch Hbuf).
  - apply (Forall2_same_entry_swap (chunk ys cycleSize w2)
             (chunk xs cycleSize w1) (w_buffer w2) (w_buffer w1));
      by try symmetry.
Qed.

Lemma same_walk_case (w1 w2 : walk) (r1 r2 : walk + walk) :
  same_walk w1 w2 →
  walk_case now xs cycleSize w1 r1 →
  walk_case now ys cycleSize w2 r2 →
  match r1, r2 with
  | inl w1', inl w2' => same_walk w1' w2'
  | inr w1', inr w2' => same_walk w1' w2'
  | _, _ => False
  end.
Proof.
  intros Hsim H1 H2.
  pose proof (same_repeats w1 w2 Hsim) as Hrep.
  pose proof same_len as Hl.
  destruct Hsim as (Hi & Hr & Hbuf & Hres).
  assert (Hsim : same_walk w1 w2) by done.
  inversion H1 as [?| ?|? Hrep1|? Hrep1 ?|x ? Hrep1 ? Hx]; subst r1;
    inversion H2 as [?| ?|? Hrep2|? Hrep2 ?|y ? Hrep2 ? Hy]; subst r2;
    try done; try lia; try tauto.
  - unfold same_walk; simpl. repeat split; (congruence || done).
  - unfold same_walk; simpl.
    split; [congruence|]. split; [done|].
    split; [by apply same_chunk|].
    apply Forall2_app; [done|]. apply Forall2_app; [done|].
    rewrite Hr. by apply Forall2_cons_2.
  - unfold same_walk; simpl.
    split; [congruence|]. split; [done|]. split.
    + apply Forall2_app; [by apply Forall2_drop|].
      apply Forall2_cons_2; [|constructor].
      rewrite Hi in Hx.
      by destruct (Forall2_lookup_l _ _ _ _ _ Hxy Hx)
        as (y' & Hy' & ?); simplify_eq.
    + apply Forall2_app; [done|]. by apply Forall2_take.
Qed.

Lemma same_walk_loop (fuel : nat) : ∀ w1 w2 : walk,
  walk_inv now xs cycleSize w1 →
  walk_inv now ys cycleSize w2 →
  same_walk w1 w2 →
  (len xs - w_i w1 < Z.of_nat fuel)%Z →
  ∃ w1' w2',
    walk_loop fuel xs cycleSize w1 = Done w1'
    ∧ walk_loop fuel ys cycleSize w2 = Done w2'
    ∧ walk_inv now xs cycleSize w1'
    ∧ walk_inv now ys cycleSize w2'
    ∧ same_walk w1' w2'.
Proof.
  pose proof same_len as Hl.
  assert (Hlen2 : (cycleSize < len ys)%Z) by lia.
  assert (Hmax2 : (len ys ≤ max_len)%Z) by lia.
  induction fuel as [|fuel IH]; intros w1 w2 Hinv1 Hinv2 Hsim Hfuel.
  { destruct Hinv1 as ([? ?] & _). lia. }
  rewrite !walk_loop_S.
  destruct (walk_step_case now xs cycleSize Hc Hlen Hmax w1 Hinv1)
    as (r1 & -> & Hcase1).
  destruct (walk_step_case now ys cycleSize Hc Hlen2 Hmax2 w2 Hinv2)
    as (r2 & -> & Hcase2).
  pose proof (same_walk_case w1 w2 r1 r2 Hsim Hcase1 Hcase2) as Hnext.
  cbn. destruct r1 as [w1'|w1'], r2 as [w2'|w2']; try done.
  - assert (walk_inv now xs cycleSize w1' ∧ (w_i w1 < w_i w1')%Z)
      as [Hinv1' Hlt] by (eapply walk_case_inv; eassumption).
    assert (walk_inv now ys cycleSize w2' ∧ (w_i w2 < w_i w2')%Z)
      as [Hinv2' _] by (eapply walk_case_inv; eassumption).
    apply IH; [done..|lia].
  - apply walk_case_exit in Hcase1 as [-> _]; [|done..].
    apply walk_case_exit in Hcase2 as [-> _]; [|done..].
    by exists w1, w2.
Qed.

Lemma same_SquashLogs (fuel : nat) :
  (length xs ≤ fuel)%nat →
  same_output (SquashLogs fuel now xs cycleSize)
    (SquashLogs fuel now ys cycleSize).
Proof.
  intros Hfuel. pose proof same_len as Hl.
  assert (Hlen2 : (cycleSize < len ys)%Z) by lia.
  assert (Hmax2 : (len ys ≤ max_len)%Z) by lia.
  rewrite !SquashLogs_unfold by done.
  destruct (same_walk_loop fuel
              (walk0 now cycleSize (take (Z.to_nat cycleSize) xs))
              (walk0 now cycleSize (take (Z.to_nat cycleSize) ys)))
    as (w1 & w2 & -> & -> & Hinv1 & Hinv2 & Hi & Hr & Hbuf & Hres).
  { by apply walk0_inv. }
  { by apply walk0_inv. }
  { unfold same_walk, walk0; simpl.
    repeat split; try done. by apply Forall2_take. }
  { unfold len. simpl. lia. }
  cbn. rewrite !(finish_spec now) by done. simpl.
  apply Forall2_app; [done|]. apply Forall2_app; [done|].
  apply Forall2_app.
  - unfold final_marker. rewrite Hr.
    destruct (0 <? w_repeat w2)%Z; by repeat constructor.
  - rewrite Hi. by apply Forall2_drop.
Qed.

End SameInputs.

Lemma repeats_iff_counted (now : Time) (statuses : History) (cycleSize : Z)
  (w : walk) :
  (1 ≤ cycleSize)%Z → (cycleSize < len statuses)%Z →
  (len statuses ≤ max_len)%Z →
  walk_inv now statuses cycleSize w →
  (w_i w + cycleSize ≤ len statuses)%Z →
  repeats statuses cycleSize w
  ↔ ∃ w', walk_step statuses cycleSize w = Done (inl w')
          ∧ w_repeat w' = (w_repeat w + 1)%Z
          ∧ w_i w' = (w_i w + cycleSize)%Z
          ∧ w_result w' = w_result w
          ∧ w_buffer w' = w_buffer w.
Proof.
  intros Hc Hlen Hmax Hinv Hle. split.
  - intros Hrep. eexists. split; [by apply (walk_step_repetition now)|done].
  - intros (w' & Hstep & Hr & _).
    destruct (decide (repeats statuses cycleSize w)) as [|Hrep]; [done|].
    exfalso.
    destruct Hinv as ([Hi1 Hi2] & Hb & [Hr1 Hr2] & Hrs).
    assert (Hinv : walk_inv now statuses cycleSize w) by done.
    destruct (decide (0 < w_repeat w)%Z) as [Hpos|Hzero].
    + rewrite (walk_step_flush now) in Hstep by done.
      injection Hstep as <-. simpl in Hr. lia.
    + destruct (lookup_lt_is_Some_2 statuses (Z.to_nat (w_i w))) as [x Hx].
      { unfold len in *. lia. }
      rewrite (walk_step_push now statuses cycleSize Hc Hlen Hmax w x)
        in Hstep by (done || lia).
      injection Hstep as <-. simpl in Hr. lia.
Qed.

(** C7: the comparison of a chunk with the buffer succeeds exactly when
    every record of the chunk has the status and the info of the buffer's
    record at its position; replacing the other fields of a record leaves
    it the same entry; the walk counts a repetition exactly when the chunk
    and the buffer agree in this way; two inputs that agree record by record
    on status and info are squashed alike; and a second pair of records with
    the status and info of the first pair, whatever their other fields, is
    squashed into the marker. *)
Theorem detection_status_info_only :
  (∀ subset buffer : History,
     length subset = length buffer →
     detect 0 subset buffer true
     = Done (bool_decide (Forall2 same_entry subset buffer)))
  ∧ (∀ d data since kind version life err,
       same_entry (with_other_fields d data since kind version life err) d)
  ∧ (∀ now statuses cycleSize w,
       (1 ≤ cycleSize)%Z → (cycleSize < len statuses)%Z →
       (len statuses ≤ max_len)%Z →
       walks now statuses cycleSize w →
       (w_i w + cycleSize ≤ len statuses)%Z →
       repeats statuses cycleSize w
       ↔ ∃ w', walk_step statuses cycleSize w = Done (inl w')
               ∧ w_repeat w' = (w_repeat w + 1)%Z
               ∧ w_i w' = (w_i w + cycleSize)%Z
               ∧ w_result w' = w_result w
               ∧ w_buffer w' = w_buffer w)
  ∧ (∀ fuel now xs ys cycleSize,
       (1 ≤ cycleSize)%Z → (cycleSize < len xs)%Z → (len xs ≤ max_len)%Z →
       Forall2 same_entry xs ys →
       (length xs ≤ fuel)%nat →
       same_output (SquashLogs fuel now xs cycleSize)
         (SquashLogs fuel now ys cycleSize))
  ∧ (∀ fuel now a b a' b',
       same_entry a' a → same_entry b' b →
       SquashLogs (2 + fuel) now [a; b; a'; b'] 2
       = Done [a; b; marker now 2 1]).
Proof.
  split.
  { intros subset buffer Hl. rewrite detect_spec by lia.
    by rewrite Hl, drop_0, firstn_all. }
  split; [done|].
  split.
  { intros now statuses cycleSize w Hc Hlen Hmax Hw Hle.
    apply (repeats_iff_counted now); try done.
    by apply walks_inv. }
  split.
  { intros fuel now xs ys cycleSize Hc Hlen Hmax Hxy Hfuel.
    by apply same_SquashLogs. }
  intros fuel now a b a' b' Ha Hb.
  set (statuses := [a; b; a'; b']).
  assert (Hc : (1 ≤ 2)%Z) by lia.
  assert (Hlen : (2 < len statuses)%Z) by (by vm_compute).
  assert (Hmax : (len statuses ≤ max_len)%Z) by (by vm_compute).
  rewrite (SquashLogs_unfold now statuses 2); [|done..].
  change (2 + fuel)%nat with (S (S fuel)).
  rewrite walk_loop_S.
  rewrite (walk_step_repetition now statuses 2); [|try walk_side..].
  2:{ unfold repeats, chunk. simpl. by repeat apply Forall2_cons_2. }
  cbn. rewrite walk_loop_S.
  rewrite (walk_step_exit now statuses 2); [|try walk_side..].
  cbn.
  rewrite (finish_spec now statuses 2); [|try walk_side..].
  done.
Qed.

Lemma detection_status_info_only_witness :
  same_entry rec3 rec1 ∧ same_entry rec4 rec2 ∧ rec3 ≠ rec1 ∧ rec4 ≠ rec2
  ∧ SquashLogs (2 + 2) 99 [rec1; rec2; rec3; rec4] 2
    = Done [rec1; rec2; marker 99 2 1].
Proof.
  split; [by vm_compute|]. split; [by vm_compute|].
  split; [intros H; by vm_compute in H|].
  split; [intros H; by vm_compute in H|].
  apply (detection_status_info_only); by vm_compute.
Defined.

(** ** Instances at concrete inputs *)

Lemma Validate_exactly_one_witness :
  Validate filter_size = None
  ∧ (∃ msg, Validate filter_size_date = Some (NotValid msg)
            ∧ msg ∈ conflict_messages ∧ names_set_pair filter_size_date msg)
  ∧ Validate (with_Exclude filter_size ∅) = Validate filter_size.
Proof.
  split; [by apply (Validate_exactly_one filter_size)|].
  split; [|by apply (Validate_exactly_one filter_size)].
  apply (Validate_exactly_one filter_size_date). vm_compute. lia.
Defined.

Lemma SquashLogs_outside_precondition_witness :
  push [] rec1 = Panic
  ∧ SquashLogs 1 99 ex3 (-1) = Panic
  ∧ walk_step ex3 (-1) (walk0 99%Z (-1) []) = Panic
  ∧ SquashLogs 1 99 [rec1] (Int.min_int + 1) = Panic
  ∧ SquashLogs 1000 99 ex3 0 = OutOfFuel.
Proof.
  split; [by apply SquashLogs_outside_precondition|].
  split.
  { apply SquashLogs_outside_precondition; [by vm_compute|lia]. }
  split.
  { apply (SquashLogs_outside_precondition);
      [exact 0%nat|by vm_compute|lia|lia]. }
  split.
  { apply SquashLogs_outside_precondition; by vm_compute. }
  by apply SquashLogs_outside_precondition.
Defined.

(** * Further properties of the status history *)

(** ** The size and the head of the output *)

(** With [cycleSize >= 1], [SquashLogs] returns on every input, and never
    more records than it was given: a marker takes the place of at least
    one record. *)
Theorem SquashLogs_no_longer (fuel : nat) (now : Time) (statuses : History)
  (cycleSize : Z) :
  (1 ≤ cycleSize)%Z →
  (len statuses ≤ max_len)%Z →
  (length statuses ≤ fuel)%nat →
  ∃ out, SquashLogs fuel now statuses cycleSize = Done out
         ∧ (length out ≤ length statuses)%nat.
Proof.
  intros Hc Hmax Hfuel.
  destruct (Z.le_gt_cases (len statuses) cycleSize) as [Hshort|Hlen].
  { exists statuses. split; [|done]. by apply SquashLogs_short. }
  destruct (SquashLogs_rule now statuses cycleSize Hc ltac:(lia) Hmax
              (no_longer cycleSize) fuel)
    as (w & _ & Hinv & HP & Hexit & Hout).
  { intros w w' ([Hi1 Hi2] & Hb & [Hr1 Hr2] & _) HP Hcase.
    unfold no_longer, len in *.
    inversion Hcase as [| |Hle Hrep|Hle Hrep Hpos|x Hle Hrep Hr0 Hx]; subst w';
      simpl.
    - destruct (Z.ltb_spec 0 (w_repeat w)),
        (Z.ltb_spec 0 (w_repeat w + 1)); lia.
    - destruct (Z.ltb_spec 0 (w_repeat w)); [|lia].
      rewrite !length_app. simpl. lia.
    - rewrite Hr0 in HP. simpl in HP.
      rewrite length_app, length_take. lia. }
  { unfold no_longer, walk0, len. simpl. lia. }
  { done. }
  exists (w_result w ++ w_buffer w ++ final_marker now cycleSize w
          ++ drop (Z.to_nat (w_i w) + 1) statuses).
  split; [done|].
  destruct Hinv as ([Hi1 Hi2] & Hb & _).
  unfold no_longer, final_marker, len in *.
  rewrite !length_app, length_drop.
  destruct (Z.ltb_spec 0 (w_repeat w)); simpl; lia.
Qed.

Lemma SquashLogs_no_longer_witness :
  ∃ out, SquashLogs 8 99 ex8 2 = Done out ∧ (length out ≤ length ex8)%nat.
Proof.
  apply (SquashLogs_no_longer 8 99%Z ex8 2%Z); [lia|by vm_compute|simpl; lia].
Defined.

(** With [cycleSize >= 1], the output starts with the first [cycleSize]
    records of the input: the first appearance of a cycle is kept. *)
Theorem SquashLogs_keeps_head (fuel : nat) (now : Time) (statuses : History)
  (cycleSize : Z) :
  (1 ≤ cycleSize)%Z →
  (len statuses ≤ max_len)%Z →
  (length statuses ≤ fuel)%nat →
  ∃ out, SquashLogs fuel now statuses cycleSize = Done out
         ∧ take (Z.to_nat cycleSize) out
           = take (Z.to_nat cycleSize) statuses.
Proof.
  intros Hc Hmax Hfuel.
  destruct (Z.le_gt_cases (len statuses) cycleSize) as [Hshort|Hlen].
  { exists statuses. split; [|done]. by apply SquashLogs_short. }
  destruct (SquashLogs_rule now statuses cycleSize Hc ltac:(lia) Hmax
              (keeps_head statuses cycleSize) fuel)
    as (w & _ & Hinv & HP & Hexit & Hout).
  { intros w w' ([Hi1 Hi2] & Hb & _) HP Hcase.
    unfold keeps_head, len in *.
    inversion Hcase as [| |Hle Hrep|Hle Hrep Hpos|x Hle Hrep Hr0 Hx]; subst w';
      simpl.
    - done.
    - rewrite <- HP, <- !app_assoc, (app_assoc (w_result w)).
      apply take_app_le. rewrite length_app. lia.
    - rewrite <- HP, <- !app_assoc, (app_assoc (take 1 _)), take_drop.
      rewrite (app_assoc (w_result w)).
      apply take_app_le. rewrite length_app. lia. }
  { unfold keeps_head, walk0. simpl. by rewrite take_take, Nat.min_id. }
  { done. }
  eexists. split; [exact Hout|].
  destruct Hinv as (_ & Hb & _). unfold keeps_head, len in *.
  rewrite <- HP, (app_assoc (w_result w)).
  apply take_app_le. rewrite length_app. lia.
Qed.

Lemma SquashLogs_keeps_head_witness :
  ∃ out, SquashLogs 8 99 ex8 2 = Done out
         ∧ take (Z.to_nat 2) out = take (Z.to_nat 2) ex8.
Proof.
  apply (SquashLogs_keeps_head 8 99%Z ex8 2%Z);
    [lia|by vm_compute|simpl; lia].
Defined.

(** ** Inputs that only repeat *)

Lemma counting_step (now : Time) (statuses : History) (cycleSize : Z)
  (k : nat) (w w' : walk) :
  (1 ≤ cycleSize)%Z →
  all_repeat statuses cycleSize k →
  walk_inv now statuses cycleSize w →
  counting statuses cycleSize w →
  walk_case now statuses cycleSize w (inl w') →
  counting statuses cycleSize w'.
Proof.
  intros Hc [Hl Hall] ([Hi1 Hi2] & Hb & [Hr1 Hr2] & _) (Hres & Hbuf & Hi)
    Hcase.
  rewrite Forall_forall in Hall.
  assert (Hrepeats : (w_i w + cycleSize ≤ len statuses)%Z →
                     repeats statuses cycleSize w).
  { intros Hle. unfold repeats, chunk. rewrite Hbuf.
    replace (Z.to_nat (w_i w))
      with (Z.to_nat (w_repeat w + 1) * Z.to_nat cycleSize)%nat by nia.
    apply Hall. apply elem_of_seq. unfold len in *. nia. }
  inversion Hcase as [| |Hle Hrep|Hle Hrep Hpos|x Hle Hrep Hr0 Hx]; subst w'.
  - unfold counting; simpl. repeat split; (done || lia).
  - by destruct Hrep; apply Hrepeats.
  - by destruct Hrep; apply Hrepeats.
Qed.

(** An input made of [k + 1 >= 2] chunks of [cycleSize] records, all with
    the status and info of the first chunk record by record, is squashed
    into the first chunk followed by one marker that counts [k]
    repetitions. *)
Theorem SquashLogs_all_repeat (fuel : nat) (now : Time) (statuses : History)
  (cycleSize : Z) (k : nat) :
  (1 ≤ cycleSize)%Z →
  (1 ≤ k)%nat →
  (len statuses ≤ max_len)%Z →
  all_repeat statuses cycleSize k →
  (length statuses ≤ fuel)%nat →
  SquashLogs fuel now statuses cycleSize
  = Done (take (Z.to_nat cycleSize) statuses
          ++ [marker now cycleSize (Z.of_nat k)]).
Proof.
  intros Hc Hk Hmax Hall Hfuel.
  assert (Hl : length statuses = ((k + 1) * Z.to_nat cycleSize)%nat)
    by apply Hall.
  assert (Hlen : (cycleSize < len statuses)%Z) by (unfold len; nia).
  destruct (SquashLogs_rule now statuses cycleSize Hc Hlen Hmax
              (counting statuses cycleSize) fuel)
    as (w & _ & Hinv & (Hres & Hbuf & Hi) & Hexit & Hout).
  { intros w w' Hinv HP Hcase.
    by apply (counting_step now statuses cycleSize k w w'). }
  { unfold counting, walk0. simpl. repeat split; (done || lia). }
  { done. }
  destruct Hinv as ([Hi1 Hi2] & Hb & [Hr1 Hr2] & _).
  unfold len in *.
  assert (Hr : w_repeat w = Z.of_nat k) by nia.
  rewrite Hout, Hres, Hbuf. unfold final_marker. rewrite Hr.
  destruct (Z.ltb_spec 0 (Z.of_nat k)); [|lia].
  rewrite drop_ge by nia. by rewrite app_nil_r.
Qed.

Lemma SquashLogs_all_repeat_witness :
  SquashLogs 6 99 ex6 2
  = Done (take (Z.to_nat 2) ex6 ++ [marker 99 2 (Z.of_nat 2)]).
Proof.
  apply (SquashLogs_all_repeat 6 99%Z ex6 2%Z 2);
    [lia|lia|by vm_compute| |simpl; lia].
  split; [done|]. apply (bool_decide_unpack _). by vm_compute.
Defined.

(** ** Cycles of one record *)

Section Runs.

Context (now : Time) (statuses : History).
Hypothesis Hlen : (1 < len statuses)%Z.
Hypothesis Hmax : (len statuses ≤ max_len)%Z.

Lemma walk_runs (fuel : nat) : ∀ (w : walk) (cur : DetailedStatus),
  walk_inv now statuses 1 w →
  w_buffer w = [cur] →
  (len statuses - w_i w < Z.of_nat fuel)%Z →
  (w' ← walk_loop fuel statuses 1 w; finish statuses 1 w')
  = Done (w_result w
          ++ squash_runs now cur (w_repeat w)
               (drop (Z.to_nat (w_i w)) statuses)).
Proof.
  assert (Hc : (1 ≤ 1)%Z) by lia.
  induction fuel as [|fuel IH]; intros w cur Hinv Hbuf Hfuel.
  { destruct Hinv as ([? ?] & _). lia. }
  rewrite walk_loop_S.
  destruct (walk_step_case now statuses 1 Hc Hlen Hmax w Hinv)
    as (r & -> & Hcase).
  pose proof Hinv as ([Hi1 Hi2] & Hb & [Hr1 Hr2] & _).
  assert (Hchunk : ∀ x, statuses !! Z.to_nat (w_i w) = Some x →
            drop (Z.to_nat (w_i w)) statuses
            = x :: drop (Z.to_nat (w_i w + 1)) statuses
            ∧ (repeats statuses 1 w ↔ same_entry x cur)).
  { intros x Hx. rewrite (drop_S _ _ _ Hx).
    replace (Z.to_nat (w_i w + 1)) with (S (Z.to_nat (w_i w))) by lia.
    split; [done|]. unfold repeats, chunk. rewrite Hbuf, (drop_S _ _ _ Hx).
    simpl. rewrite take_0. split.
    - intros HF. by apply Forall2_cons in HF as [? _].
    - intros HF. by apply Forall2_cons_2. }
  inversion Hcase as [Hend|Hbrk|Hle Hrep|Hle Hrep Hpos|x Hle Hrep Hr0 Hx];
    subst r; cbn.
  - rewrite (finish_spec now statuses 1) by done.
    unfold len in *. rewrite Hbuf, !drop_ge by lia. simpl.
    by rewrite app_nil_r.
  - lia.
  - destruct (lookup_lt_is_Some_2 statuses (Z.to_nat (w_i w))) as [x Hx].
    { unfold len in *. lia. }
    destruct (Hchunk x Hx) as [-> Hiff].
    rewrite IH with (cur := cur); [|by eapply walk_case_inv|done|simpl; lia].
    simpl. by rewrite decide_True by by apply Hiff.
  - destruct (lookup_lt_is_Some_2 statuses (Z.to_nat (w_i w))) as [x Hx].
    { unfold len in *. lia. }
    destruct (Hchunk x Hx) as [Hdrop Hiff].
    rewrite IH with (cur := x);
      [|by eapply walk_case_inv|by unfold chunk; rewrite Hdrop|simpl; lia].
    simpl. rewrite Hdrop. simpl.
    rewrite decide_False by (intros ?; by apply Hrep, Hiff).
    unfold marker_if. destruct (Z.ltb_spec 0 (w_repeat w)); [|lia].
    rewrite Hbuf. by rewrite <- !app_assoc.
  - destruct (Hchunk x Hx) as [Hdrop Hiff].
    rewrite IH with (cur := x);
      [|by eapply walk_case_inv|by rewrite Hbuf|simpl; lia].
    simpl. rewrite Hdrop. simpl.
    rewrite decide_False by (intros ?; by apply Hrep, Hiff).
    unfold marker_if. rewrite Hr0. simpl.
    rewrite Hbuf. by rewrite <- !app_assoc.
Qed.

End Runs.

(** With [cycleSize = 1], [SquashLogs] keeps the first record of every run
    of consecutive records with the same status and info, and puts after it
    a marker that counts the other records of the run when there are any:
    the output is that of the recursion [squash_runs]. *)
Theorem SquashLogs_runs (fuel : nat) (now : Time) (x : DetailedStatus)
  (rest : History) :
  (len (x :: rest) ≤ max_len)%Z →
  (length (x :: rest) ≤ fuel)%nat →
  SquashLogs fuel now (x :: rest) 1 = Done (squash_runs now x 0 rest).
Proof.
  intros Hmax Hfuel.
  destruct rest as [|y rest].
  { by apply SquashLogs_short. }
  assert (Hlen : (1 < len (x :: y :: rest))%Z) by (unfold len; simpl; lia).
  rewrite (SquashLogs_unfold now _ 1) by (done || lia).
  rewrite (walk_runs now _ Hlen Hmax fuel _ x).
  - done.
  - by apply walk0_inv.
  - done.
  - unfold len. simpl. simpl in Hfuel. lia.
Qed.

Lemma SquashLogs_runs_witness :
  SquashLogs 4 99 (rec1 :: [rec3; rec2; rec4]) 1
  = Done (squash_runs 99%Z rec1 0 [rec3; rec2; rec4])
  ∧ squash_runs 99%Z rec1 0 [rec3; rec2; rec4]
    = [rec1; marker 99 1 1; rec2; marker 99 1 1].
Proof.
  split; [|by vm_compute].
  apply (SquashLogs_runs 4 99%Z rec1 [rec3; rec2; rec4]);
    [by vm_compute|simpl; lia].
Defined.

(** ** Pushing a chunk through the window *)

(** Pushing the first [n] records of [subset] through a non-empty window,
    one after the other, slides the window over the window followed by
    those records: the records pushed out are the first [n] of that
    sequence, in order, and the window is left holding the rest. With as
    many records as the window holds, the old window comes out and the
    records are left in it. *)
Theorem flush_chunk_slides (n : nat) (subset window result : History) :
  (n ≤ length subset)%nat →
  window ≠ [] →
  flush_chunk n 0 subset window result
  = Done (drop n (window ++ take n subset),
          result ++ take n (window ++ take n subset))
  ∧ (n = length subset → n = length window →
     flush_chunk n 0 subset window result = Done (subset, result ++ window)).
Proof.
  intros Hn Hne.
  assert (Heq : flush_chunk n 0 subset window result
                = Done (drop n (window ++ take n subset),
                        result ++ take n (window ++ take n subset))).
  { rewrite flush_chunk_spec; [|lia|by right]. by rewrite drop_0. }
  split; [done|]. intros Hs Hw. rewrite Heq.
  rewrite (take_ge subset) by lia.
  by rewrite drop_app_length', take_app_length' by lia.
Qed.

Lemma flush_chunk_slides_witness :
  flush_chunk 2 0 [rec5; rec6] [rec1; rec2] []
  = Done (drop 2 ([rec1; rec2] ++ take 2 [rec5; rec6]),
          [] ++ take 2 ([rec1; rec2] ++ take 2 [rec5; rec6]))
  ∧ (2%nat = length [rec5; rec6] → 2%nat = length [rec1; rec2] →
     flush_chunk 2 0 [rec5; rec6] [rec1; rec2] []
     = Done ([rec5; rec6], [] ++ [rec1; rec2])).
Proof.
  apply (flush_chunk_slides 2 [rec5; rec6] [rec1; rec2] []);
    [simpl; lia|done].
Defined.

(** * Properties of the model configuration *)

(** ** URLs of proxies *)

Lemma Contains_prefix (s substr : string) :
  String.prefix substr s = true → Contains s substr = true.
Proof. intros H. destruct s; cbn [Contains]; by rewrite H. Qed.

Lemma Contains_app_r (p s substr : string) :
  Contains s substr = true → Contains (p +:+ s) substr = true.
Proof.
  intros H. induction p as [|a p IH]; [done|].
  change (Contains (String a (p +:+ s)) substr = true).
  cbn [Contains]. rewrite IH. apply orb_true_r.
Qed.

Lemma append_empty (p s : string) : p +:+ s = "" → s = "".
Proof. by destruct p. Qed.

(** [addSchemeIfMissing] leaves alone the empty URL and every URL that has
    a scheme separator, gives every other URL one, and so changes nothing
    when applied a second time, with whatever scheme. *)
Theorem addSchemeIfMissing_once (defaultScheme scheme' url : string) :
  addSchemeIfMissing scheme' (addSchemeIfMissing defaultScheme url)
  = addSchemeIfMissing defaultScheme url
  ∧ (addSchemeIfMissing defaultScheme url = "" ↔ url = "")
  ∧ qualified (addSchemeIfMissing defaultScheme url)
  ∧ (qualified url → addSchemeIfMissing defaultScheme url = url)
  ∧ (¬ qualified url →
     addSchemeIfMissing defaultScheme url
     = defaultScheme +:+ "://" +:+ url).
Proof.
  assert (Hq : ∀ r, qualified r → ∀ d, addSchemeIfMissing d r = r).
  { intros r [->|Hr] d; unfold addSchemeIfMissing; [done|].
    rewrite Hr. by rewrite andb_false_r. }
  unfold addSchemeIfMissing at 2 3 4 5 6, qualified.
  destruct (String.eqb_spec url "") as [->|Hne]; simpl.
  { split; [done|]. split; [done|]. split; [by left|]. split; [done|].
    intros H. by destruct H; left. }
  destruct (Contains url "://") eqn:Hc; simpl.
  { split; [apply Hq; by right|]. split; [done|]. split; [by right|].
    split; [done|]. intros H. by destruct H; right. }
  assert (Hr : Contains (defaultScheme +:+ "://" +:+ url) "://" = true).
  { apply Contains_app_r, Contains_prefix. simpl.
    by destruct url. }
  split; [apply Hq; by right|]. split.
  { split; [|by intros ?]. intros H. by apply append_empty in H. }
  split; [by right|]. split; [intros [?|?]; done|].
  intros _. unfold addSchemeIfMissing. rewrite Hc.
  by destruct (String.eqb_spec url "").
Qed.

(** The proxies that apt is given: each of the four settings of
    [AptProxySettings] is read from its apt attribute, and from the general
    proxy attribute of the same kind when the apt attribute is unset, not a
    string or empty; the http, https and ftp values are then given the scheme
    of their kind when they lack one, so that each of these three URLs is
    empty or has a scheme separator, and the no-proxy value is returned as it
    is. *)
Theorem AptProxySettings_qualified (c : Config) :
  qualified (Http (AptProxySettings c))
  ∧ qualified (Https (AptProxySettings c))
  ∧ qualified (Ftp (AptProxySettings c))
  ∧ (asString c AptHTTPProxyKey = "" →
     Http (AptProxySettings c) = addSchemeIfMissing "http" (HTTPProxy c))
  ∧ (asString c AptHTTPProxyKey ≠ "" →
     Http (AptProxySettings c)
     = addSchemeIfMissing "http" (asString c AptHTTPProxyKey))
  ∧ (asString c AptHTTPSProxyKey = "" →
     Https (AptProxySettings c) = addSchemeIfMissing "https" (HTTPSProxy c))
  ∧ (asString c AptHTTPSProxyKey ≠ "" →
     Https (AptProxySettings c)
     = addSchemeIfMissing "https" (asString c AptHTTPSProxyKey))
  ∧ (asString c AptFTPProxyKey = "" →
     Ftp (AptProxySettings c) = addSchemeIfMissing "ftp" (FTPProxy c))
  ∧ (asString c AptFTPProxyKey ≠ "" →
     Ftp (AptProxySettings c)
     = addSchemeIfMissing "ftp" (asString c AptFTPProxyKey))
  ∧ (asString c AptNoProxyKey = "" →
     NoProxy_ (AptProxySettings c) = NoProxy c)
  ∧ (asString c AptNoProxyKey ≠ "" →
     NoProxy_ (AptProxySettings c) = asString c AptNoProxyKey).
Proof.
  assert (Hf : ∀ key fallback,
            (asString c key = "" →
             getWithFallback c key fallback = asString c fallback)
            ∧ (asString c key ≠ "" →
               getWithFallback c key fallback = asString c key)).
  { intros key fallback. unfold getWithFallback.
    by destruct (String.eqb_spec (asString c key) ""). }
  unfold AptProxySettings, AptHTTPProxy, AptHTTPSProxy, AptFTPProxy,
    AptNoProxy, HTTPProxy, HTTPSProxy, FTPProxy, NoProxy; simpl.
  split; [apply (addSchemeIfMissing_once "http" "")|].
  split; [apply (addSchemeIfMissing_once "https" "")|].
  split; [apply (addSchemeIfMissing_once "ftp" "")|].
  split; [intros H; by rewrite (proj1 (Hf _ _) H)|].
  split; [intros H; by rewrite (proj2 (Hf _ _) H)|].
  split; [intros H; by rewrite (proj1 (Hf _ _) H)|].
  split; [intros H; by rewrite (proj2 (Hf _ _) H)|].
  split; [intros H; by rewrite (proj1 (Hf _ _) H)|].
  split; [intros H; by rewrite (proj2 (Hf _ _) H)|].
  split; [intros H; by rewrite (proj1 (Hf _ _) H)|].
  intros H; by rewrite (proj2 (Hf _ _) H).
Qed.

Lemma AptProxySettings_qualified_witness :
  AptProxySettings cfg1
  = {| Http := "http://proxy.internal:3128"; Https := "";
       Ftp := "ftp://ftp.internal"; NoProxy_ := "127.0.0.1,localhost,::1" |}
  ∧ Http (AptProxySettings cfg1) = addSchemeIfMissing "http" (HTTPProxy cfg1)
  ∧ Ftp (AptProxySettings cfg1)
    = addSchemeIfMissing "ftp" (asString cfg1 AptFTPProxyKey).
Proof.
  destruct (AptProxySettings_qualified cfg1)
    as (_ & _ & _ & Hhttp & _ & _ & _ & _ & Hftp & _).
  split; [by vm_compute|].
  split; [apply Hhttp; by vm_compute|].
  apply Hftp. intros H. by vm_compute in H.
Defined.

(** ** Proxy settings and the map made from them *)

Lemma ProxyConfigMap_lookup (s : Settings) :
  asString {| defined := ProxyConfigMap s; unknown := ∅ |} HTTPProxyKey
  = Http s
  ∧ asString {| defined := ProxyConfigMap s; unknown := ∅ |} HTTPSProxyKey
    = Https s
  ∧ asString {| defined := ProxyConfigMap s; unknown := ∅ |} FTPProxyKey
    = Ftp s
  ∧ asString {| defined := ProxyConfigMap s; unknown := ∅ |} NoProxyKey
    = NoProxy_ s.
Proof.
  destruct s as [h hs f n].
  unfold asString, ProxyConfigMap, addIfNotEmpty, HTTPProxyKey, HTTPSProxyKey,
    FTPProxyKey, NoProxyKey; simpl.
  destruct (String.eqb_spec h ""), (String.eqb_spec hs ""),
    (String.eqb_spec f ""), (String.eqb_spec n ""); subst; simpl;
    by simplify_map_eq.
Qed.

Lemma ProxyConfigMap_keys (s : Settings) :
  ProxyConfigMap s !! HTTPProxyKey
  = (if String.eqb (Http s) "" then None else Some (VString (Http s)))
  ∧ ProxyConfigMap s !! HTTPSProxyKey
    = (if String.eqb (Https s) "" then None else Some (VString (Https s)))
  ∧ ProxyConfigMap s !! FTPProxyKey
    = (if String.eqb (Ftp s) "" then None else Some (VString (Ftp s)))
  ∧ ProxyConfigMap s !! NoProxyKey
    = (if String.eqb (NoProxy_ s) "" then None
       else Some (VString (NoProxy_ s)))
  ∧ (∀ k, k ∉ proxy_keys → ProxyConfigMap s !! k = None).
Proof.
  destruct s as [h hs f n].
  unfold ProxyConfigMap, addIfNotEmpty, proxy_keys, HTTPProxyKey,
    HTTPSProxyKey, FTPProxyKey, NoProxyKey; simpl.
  repeat split.
  5:{ intros k Hk.
      assert (k ≠ "http-proxy" ∧ k ≠ "https-proxy" ∧ k ≠ "ftp-proxy"
              ∧ k ≠ "no-proxy") as (? & ? & ? & ?) by set_solver.
      destruct (String.eqb h ""), (String.eqb hs ""), (String.eqb f ""),
        (String.eqb n ""); simpl; by simplify_map_eq. }
  all: destruct (String.eqb h ""), (String.eqb hs ""), (String.eqb f ""),
         (String.eqb n ""); simpl; by simplify_map_eq.
Qed.

(** [addIfNotEmpty] stores a setting under its key unless it is empty, so
    the map that [ProxyConfigMap] makes holds each of the four settings that
    is not empty under its key, as a string, and nothing else: an empty
    setting is left out of the map. Reading the proxy settings back from a
    configuration that holds, under the four proxy keys, what
    [ProxyConfigMap] made of some settings gives those settings, whatever
    else the configuration holds: a setting left out is read back as
    empty. *)
Theorem ProxySettings_ProxyConfigMap (c : Config) (s : Settings) :
  (∀ k, k ∈ proxy_keys → defined c !! k = ProxyConfigMap s !! k) →
  ProxySettings c = s
  ∧ (∀ settings key, addIfNotEmpty settings key "" = settings)
  ∧ (∀ settings key value, value ≠ "" →
       addIfNotEmpty settings key value = <[key := VString value]> settings)
  ∧ ProxyConfigMap s !! HTTPProxyKey
    = (if String.eqb (Http s) "" then None else Some (VString (Http s)))
  ∧ ProxyConfigMap s !! HTTPSProxyKey
    = (if String.eqb (Https s) "" then None else Some (VString (Https s)))
  ∧ ProxyConfigMap s !! FTPProxyKey
    = (if String.eqb (Ftp s) "" then None else Some (VString (Ftp s)))
  ∧ ProxyConfigMap s !! NoProxyKey
    = (if String.eqb (NoProxy_ s) "" then None
       else Some (VString (NoProxy_ s)))
  ∧ (∀ k, k ∉ proxy_keys → ProxyConfigMap s !! k = None)
  ∧ (∀ k, k ∈ proxy_keys → asString c k = "" → ProxyConfigMap s !! k = None).
Proof.
  intros H.
  destruct (ProxyConfigMap_keys s) as (Kh & Khs & Kf & Kn & Ko).
  split.
  { destruct (ProxyConfigMap_lookup s) as (Hh & Hhs & Hf & Hn).
    unfold asString in *. simpl in *.
    unfold ProxySettings, HTTPProxy, HTTPSProxy, FTPProxy, NoProxy, asString.
    rewrite !H by (unfold proxy_keys; set_solver).
    rewrite Hh, Hhs, Hf, Hn. by destruct s. }
  split; [done|].
  split.
  { intros settings key value Hv. unfold addIfNotEmpty.
    by destruct (String.eqb_spec value ""). }
  do 5 (split; [done|]).
  intros k Hk Hempty. unfold asString in Hempty. rewrite (H k Hk) in Hempty.
  apply list_elem_of_In in Hk. simpl in Hk.
  destruct Hk as [<- | [<- | [<- | [<- | []]]]].
  - rewrite Kh in *. by destruct (String.eqb_spec (Http s) "").
  - rewrite Khs in *. by destruct (String.eqb_spec (Https s) "").
  - rewrite Kf in *. by destruct (String.eqb_spec (Ftp s) "").
  - rewrite Kn in *. by destruct (String.eqb_spec (NoProxy_ s) "").
Qed.

Lemma ProxySettings_ProxyConfigMap_witness :
  ProxySettings
    {| defined := <["name" := VString "controller"]> (ProxyConfigMap settings1);
       unknown := ∅ |}
  = settings1
  ∧ ProxyConfigMap settings1 !! HTTPProxyKey
    = Some (VString "http://proxy.internal:3128")
  ∧ ProxyConfigMap settings1 !! HTTPSProxyKey = None
  ∧ ProxyConfigMap settings1 !! FTPProxyKey = None.
Proof.
  destruct (ProxySettings_ProxyConfigMap
              {| defined := <["name" := VString "controller"]>
                              (ProxyConfigMap settings1);
                 unknown := ∅ |} settings1)
    as (Hback & _ & _ & Hh & Hhs & Hf & _).
  { intros k Hk. simpl.
    apply lookup_insert_ne. intros <-.
    apply list_elem_of_In in Hk. vm_compute in Hk. intuition discriminate. }
  split; [exact Hback|]. split; [exact Hh|]. split; [exact Hhs|exact Hf].
Defined.

(** ** Copies of the attributes *)

Lemma copy_into_list (order : list (string * attr)) :
  ∀ attrs : gmap string attr,
  NoDup order.*1 →
  copy_into attrs order = list_to_map order ∪ attrs.
Proof.
  unfold copy_into.
  induction order as [|[k v] order IH]; intros attrs Hnd; simpl.
  { by rewrite (left_id_L ∅ (∪)). }
  apply NoDup_cons in Hnd as [Hk Hnd].
  rewrite IH by done.
  rewrite <- insert_union_r by by apply not_elem_of_list_to_map_1.
  by rewrite insert_union_l.
Qed.

Lemma copy_into_ranges (m attrs : gmap string attr)
  (order : list (string * attr)) :
  ranges m order → copy_into attrs order = m ∪ attrs.
Proof.
  unfold ranges. intros Hperm.
  assert (Hnd : NoDup order.*1).
  { rewrite Hperm. apply NoDup_fst_map_to_list. }
  rewrite copy_into_list by done.
  by rewrite (list_to_map_proper _ _ Hnd Hperm), list_to_map_to_list.
Qed.

(** Whatever the order in which the loops visit the maps,
    [ProcessDeprecatedAttributes] returns a map equal to its argument,
    [UnknownAttrs] one equal to the unknown attributes, and [AllAttrs] holds
    every defined attribute with its value and every unknown attribute that
    no defined attribute hides. *)
Theorem AllAttrs_defined_first (c : Config) (attrs : gmap string attr)
  (order order_unknown order_defined : list (string * attr)) :
  ranges attrs order →
  ranges (unknown c) order_unknown →
  ranges (defined c) order_defined →
  ProcessDeprecatedAttributes order attrs = attrs
  ∧ UnknownAttrs order_unknown c = unknown c
  ∧ AllAttrs order_unknown order_defined c = defined c ∪ unknown c
  ∧ ∀ k, AllAttrs order_unknown order_defined c !! k
         = match defined c !! k with
           | Some v => Some v
           | None => unknown c !! k
           end.
Proof.
  intros Ha Hu Hd.
  assert (HU : UnknownAttrs order_unknown c = unknown c).
  { unfold UnknownAttrs. rewrite (copy_into_ranges (unknown c)) by done.
    by rewrite (right_id_L ∅ (∪)). }
  assert (HA : AllAttrs order_unknown order_defined c
               = defined c ∪ unknown c).
  { unfold AllAttrs. rewrite HU. by apply copy_into_ranges. }
  split.
  { unfold ProcessDeprecatedAttributes.
    rewrite (copy_into_ranges attrs) by done.
    by rewrite (right_id_L ∅ (∪)). }
  split; [done|]. split; [done|].
  intros k. rewrite HA, lookup_union.
  by destruct (defined c !! k), (unknown c !! k).
Qed.

Lemma AllAttrs_defined_first_witness :
  AllAttrs (map_to_list (unknown cfg1)) (reverse (map_to_list (defined cfg1)))
    cfg1
  = defined cfg1 ∪ unknown cfg1.
Proof.
  apply (AllAttrs_defined_first cfg1 (defined cfg1)
           (map_to_list (defined cfg1))).
  - by unfold ranges.
  - by unfold ranges.
  - unfold ranges. apply reverse_Permutation.
Defined.

(** ** Resource tags *)

(** [resourceTags] fails exactly when some key of the tags starts with the
    reserved prefix, whatever the order in which the loop visits the keys;
    the error then names such a key, and [ResourceTags] panics. Otherwise
    both return the tags, [ResourceTags] saying whether they are [nil]. *)
Theorem resourceTags_reserved (JujuTagPrefix : string) (order : list string)
  (c : Config) :
  order ≡ₚ tag_keys c →
  (Forall (fun k => HasPrefix k JujuTagPrefix = false) (tag_keys c)
   ∧ resourceTags JujuTagPrefix order c = inl (tags_of c)
   ∧ ResourceTags JujuTagPrefix order c
     = Done (tags_of c, non_nil (tags_of c)))
  ∨ (∃ k, k ∈ tag_keys c ∧ HasPrefix k JujuTagPrefix = true
          ∧ resourceTags JujuTagPrefix order c
            = inr (ReservedPrefix k JujuTagPrefix)
          ∧ ResourceTags JujuTagPrefix order c = Panic).
Proof.
  intros Hperm. unfold ResourceTags, resourceTags, tags_of, tag_keys in *.
  destruct (defined c !! ResourceTagsKey) as [[| | | | |v]|];
    try (left; split; [constructor|done]).
  destruct (find (fun k => HasPrefix k JujuTagPrefix) order) as [k|] eqn:Hf.
  - right. exists k. apply find_some in Hf as [Hin Hk].
    split; [|done]. rewrite <- Hperm. by apply list_elem_of_In.
  - left. split; [|done]. apply Forall_forall. intros k Hk.
    apply (find_none _ _ Hf). apply list_elem_of_In. by rewrite Hperm.
Qed.

Lemma resourceTags_reserved_witness :
  resourceTags "juju-" (reverse (tag_keys cfg1)) cfg1 = inl (tags_of cfg1)
  ∧ ResourceTags "juju-" (reverse (tag_keys cfg1)) cfg1
    = Done (tags_of cfg1, true).
Proof.
  destruct (resourceTags_reserved "juju-" (reverse (tag_keys cfg1)) cfg1)
    as [(_ & H1 & H2)|(k & Hk & Hp & _)].
  - apply reverse_Permutation.
  - split; [exact H1|exact H2].
  - exfalso. vm_compute in Hk.
    apply list_elem_of_In in Hk. destruct Hk as [<-|[<-|[]]]; by vm_compute in Hp.
Defined.

(** ** Harvest modes and their descriptions *)

Lemma ParseHarvestMode_range_Some (entries : list (Z * string))
  (description : string) (method : Z) :
  ParseHarvestMode_range entries description = Some method →
  (method, description) ∈ entries.
Proof.
  induction entries as [|[m d] entries IH]; simpl; [done|].
  destruct (String.eqb_spec description d) as [->|Hne].
  - intros [= ->]. by left.
  - intros H. right. by apply IH.
Qed.

Lemma ParseHarvestMode_range_elem (entries : list (Z * string))
  (description : string) (method : Z) :
  NoDup entries.*2 →
  (method, description) ∈ entries →
  ParseHarvestMode_range entries description = Some method.
Proof.
  induction entries as [|[m d] entries IH]; simpl; intros Hnd Hin.
  { by apply elem_of_nil in Hin. }
  apply NoDup_cons in Hnd as [Hd Hnd].
  apply elem_of_cons in Hin as [[= -> ->]|Hin].
  { by rewrite String.eqb_refl. }
  destruct (String.eqb_spec description d) as [->|Hne]; [|by apply IH].
  destruct Hd. apply list_elem_of_fmap. by exists (method, d).
Qed.

Lemma harvestingMethodToFlag_NoDup (order : list (Z * string)) :
  order ≡ₚ map_to_list harvestingMethodToFlag → NoDup order.*2.
Proof.
  intros ->. apply (bool_decide_unpack _). by vm_compute.
Qed.

Lemma ParseHarvestMode_range_lookup (order : list (Z * string))
  (description : string) (method : Z) :
  order ≡ₚ map_to_list harvestingMethodToFlag →
  ParseHarvestMode_range order description = Some method
  ↔ harvestingMethodToFlag !! method = Some description.
Proof.
  intros Hperm. rewrite <- elem_of_map_to_list, <- Hperm. split.
  - apply ParseHarvestMode_range_Some.
  - apply ParseHarvestMode_range_elem.
    by apply harvestingMethodToFlag_NoDup.
Qed.

(** Whatever the order in which the loop visits the table,
    [ParseHarvestMode] returns a mode exactly when the description of that
    mode is the lower-cased input, and an error that quotes the lower-cased
    input when no mode has that description: parsing the description of a
    mode gives the mode back when lower-casing leaves the description as it
    is, and the description of a parsed mode is the lower-cased input.
    [String] panics on every value that is not one of the four modes. *)
Theorem ParseHarvestMode_String (ToLower : string → string)
  (order : list (Z * string)) (description : string) :
  order ≡ₚ map_to_list harvestingMethodToFlag →
  (∀ method,
     ParseHarvestMode ToLower order description = inl method
     ↔ HarvestMode_String method = Done (ToLower description))
  ∧ ((∀ method, HarvestMode_String method ≠ Done (ToLower description)) →
     ParseHarvestMode ToLower order description
     = inr (Errorf ("unknown harvesting method: " +:+ ToLower description)))
  ∧ (∀ method d,
       HarvestMode_String method = Done d → ToLower d = d →
       ParseHarvestMode ToLower order d = inl method)
  ∧ (∀ method, HarvestMode_String method = Panic ↔ method ∉ named_modes).
Proof.
  intros Hperm.
  assert (HS : ∀ method d,
            HarvestMode_String method = Done d
            ↔ harvestingMethodToFlag !! method = Some d).
  { intros method d. unfold HarvestMode_String.
    destruct (harvestingMethodToFlag !! method); split; congruence. }
  assert (HP : ∀ d method,
            ParseHarvestMode ToLower order d = inl method
            ↔ HarvestMode_String method = Done (ToLower d)).
  { intros d method. rewrite HS.
    rewrite <- (ParseHarvestMode_range_lookup order) by done.
    unfold ParseHarvestMode.
    destruct (ParseHarvestMode_range order (ToLower d)); split; congruence. }
  split; [apply HP|]. split.
  { intros Hnone. unfold ParseHarvestMode.
    destruct (ParseHarvestMode_range order (ToLower description))
      as [method|] eqn:Hr; [|done].
    destruct (Hnone method). apply HS.
    by apply (ParseHarvestMode_range_lookup order). }
  split.
  { intros method d Hd Hfix. apply HP. by rewrite Hfix. }
  intros method. unfold HarvestMode_String, named_modes.
  rewrite !not_elem_of_cons.
  unfold harvestingMethodToFlag, HarvestAll, HarvestNone, HarvestUnknown,
    HarvestDestroyed.
  change (Z.lor (Z.shiftl 1 1) (Z.shiftl 1 2)) with 6%Z.
  change (Z.shiftl 1 0) with 1%Z. change (Z.shiftl 1 1) with 2%Z.
  change (Z.shiftl 1 2) with 4%Z.
  destruct (decide (method = 6%Z)) as [->|?]; [by simplify_map_eq; intuition|].
  destruct (decide (method = 1%Z)) as [->|?]; [by simplify_map_eq; intuition|].
  destruct (decide (method = 2%Z)) as [->|?]; [by simplify_map_eq; intuition|].
  destruct (decide (method = 4%Z)) as [->|?]; [by simplify_map_eq; intuition|].
  rewrite !lookup_insert_ne, lookup_empty by done.
  split; [|done]. intros _.
  repeat split; (done || apply not_elem_of_nil).
Qed.

Lemma ParseHarvestMode_String_witness :
  ParseHarvestMode ascii_lower (reverse (map_to_list harvestingMethodToFlag))
    "Destroyed"
  = inl HarvestDestroyed
  ∧ ParseHarvestMode ascii_lower
      (reverse (map_to_list harvestingMethodToFlag)) "unknown"
    = inl HarvestUnknown.
Proof.
  destruct (ParseHarvestMode_String ascii_lower
              (reverse (map_to_list harvestingMethodToFlag)) "Destroyed"
              (reverse_Permutation _))
    as (Hparse & _ & Hround & _).
  split.
  - apply Hparse. by vm_compute.
  - apply Hround; by vm_compute.
Defined.

(** Whatever the order in which the loop visits the table, the mode that
    [ProvisionerHarvestMode] returns has a description: [String] does not
    panic on it. Without a string under the key the mode is
    [HarvestDestroyed]; with a string that is the description of no mode
    once lower-cased, the call panics. *)
Theorem ProvisionerHarvestMode_named (ToLower : string → string)
  (order : list (Z * string)) (c : Config) :
  order ≡ₚ map_to_list harvestingMethodToFlag →
  (∀ method,
     ProvisionerHarvestMode ToLower order c = Done method →
     ∃ d, HarvestMode_String method = Done d)
  ∧ ((∀ v, defined c !! ProvisionerHarvestModeKey ≠ Some (VString v)) →
     ProvisionerHarvestMode ToLower order c = Done HarvestDestroyed)
  ∧ (∀ v, defined c !! ProvisionerHarvestModeKey = Some (VString v) →
       (∀ method, HarvestMode_String method ≠ Done (ToLower v)) →
       ProvisionerHarvestMode ToLower order c = Panic).
Proof.
  intros Hperm.
  assert (HP : ∀ v method,
            ParseHarvestMode ToLower order v = inl method →
            HarvestMode_String method = Done (ToLower v)).
  { intros v method. unfold ParseHarvestMode, HarvestMode_String.
    destruct (ParseHarvestMode_range order (ToLower v)) as [m|] eqn:Hr;
      [|done].
    intros [= ->].
    apply (ParseHarvestMode_range_lookup order) in Hr; [|done].
    by rewrite Hr. }
  unfold ProvisionerHarvestMode. split; [|split].
  - intros method.
    destruct (defined c !! ProvisionerHarvestModeKey) as [[| | |v| |]|];
      try (intros [= <-]; by exists "destroyed").
    destruct (ParseHarvestMode ToLower order v) as [m|e] eqn:Hv; [|done].
    intros [= ->]. eexists. by apply HP.
  - intros Hnone.
    destruct (defined c !! ProvisionerHarvestModeKey) as [[| | |v| |]|];
      try done.
    by destruct (Hnone v).
  - intros v -> Hnone.
    destruct (ParseHarvestMode ToLower order v) as [m|e] eqn:Hv; [|done].
    by destruct (Hnone m); apply HP.
Qed.

Lemma ProvisionerHarvestMode_named_witness :
  ProvisionerHarvestMode ascii_lower (map_to_list harvestingMethodToFlag) cfg1
  = Done HarvestAll
  ∧ ∃ d, HarvestMode_String HarvestAll = Done d.
Proof.
  split; [by vm_compute|].
  apply (ProvisionerHarvestMode_named ascii_lower
           (map_to_list harvestingMethodToFlag) cfg1); [done|by vm_compute].
Defined.

(** ** Attributes as they are stored *)

Lemma CoerceForStorage_lookup (order : list (string * attr))
  (visit : gmap string string → list (string * string))
  (attrs : gmap string attr) (k : string) :
  ranges attrs order →
  CoerceForStorage order visit attrs !! k
  = coerce_attr visit k <$> attrs !! k.
Proof.
  unfold ranges. intros Hperm.
  set (g := fun kv : string * attr =>
              (kv.1, coerce_attr visit kv.1 kv.2)).
  assert (Hcopy : CoerceForStorage order visit attrs
                  = copy_into ∅ (g <$> order)).
  { clear Hperm. unfold CoerceForStorage, copy_into.
    generalize (∅ : gmap string attr).
    induction order as [|kv order IH]; intros acc; [done|]. simpl. apply IH. }
  assert (Hfst : (g <$> order).*1 = order.*1).
  { rewrite <- list_fmap_compose. by apply list_fmap_ext. }
  assert (Hnd : NoDup (g <$> order).*1).
  { rewrite Hfst, Hperm. apply NoDup_fst_map_to_list. }
  rewrite Hcopy, copy_into_list, (right_id_L ∅ (∪)) by done.
  destruct (attrs !! k) as [v|] eqn:Hk; simpl.
  - apply elem_of_list_to_map_1; [done|].
    apply list_elem_of_fmap. exists (k, v). split; [done|].
    rewrite Hperm. by apply elem_of_map_to_list.
  - apply not_elem_of_list_to_map_1. rewrite Hfst, Hperm.
    intros Hin. apply list_elem_of_fmap in Hin as ([k' v] & -> & Hin).
    apply elem_of_map_to_list in Hin. simpl in Hk. congruence.
Qed.

Lemma snoc_fmap_acc {A B : Type} (f : A → B) (l : list A) :
  ∀ acc : list B,
  foldl (fun acc x => acc ++ [f x]) acc l = acc ++ (f <$> l).
Proof.
  induction l as [|x l IH]; intros acc; simpl.
  - by rewrite app_nil_r.
  - by rewrite IH, <- app_assoc.
Qed.

Lemma snoc_fmap {A B : Type} (f : A → B) (l : list A) :
  foldl (fun acc x => acc ++ [f x]) [] l = f <$> l.
Proof. by rewrite snoc_fmap_acc. Qed.

(** Whatever the order in which the loops visit the maps,
    [CoerceForStorage] keeps the names of the attributes and the value of
    every attribute but the resource tags; resource tags that are a map
    become one string, the entries of that map as [key=value], each entry
    once, in the order of the visit and with a space between them, the [nil]
    map becomes the empty string, and anything else under that name stays;
    and coercing what has been coerced changes nothing. *)
Theorem CoerceForStorage_tags_only (order order' : list (string * attr))
  (visit visit' : gmap string string → list (string * string))
  (attrs : gmap string attr) :
  ranges attrs order →
  ranges (CoerceForStorage order visit attrs) order' →
  (∀ t, ranges t (visit t)) →
  dom (CoerceForStorage order visit attrs) = dom attrs
  ∧ (∀ k, k ≠ ResourceTagsKey →
          CoerceForStorage order visit attrs !! k = attrs !! k)
  ∧ (∀ v, attrs !! ResourceTagsKey = Some v →
       (∀ tags, v ≠ VTags tags) →
       CoerceForStorage order visit attrs !! ResourceTagsKey = Some v)
  ∧ (∀ t, attrs !! ResourceTagsKey = Some (VTags (Some t)) →
       CoerceForStorage order visit attrs !! ResourceTagsKey
       = Some (VString
                 (Join ((fun kv => Sprintf_tag kv.1 kv.2) <$> visit t) " "))
       ∧ visit t ≡ₚ map_to_list t
       ∧ (fun kv => Sprintf_tag kv.1 kv.2) <$> visit t
         ≡ₚ (fun kv => Sprintf_tag kv.1 kv.2) <$> map_to_list t
       ∧ (∀ resKey resValue,
            t !! resKey = Some resValue →
            Sprintf_tag resKey resValue
            ∈ (fun kv => Sprintf_tag kv.1 kv.2) <$> visit t)
       ∧ length (visit t) = size t)
  ∧ (attrs !! ResourceTagsKey = Some (VTags None) →
     CoerceForStorage order visit attrs !! ResourceTagsKey
     = Some (VString ""))
  ∧ (attrs !! ResourceTagsKey = Some (VTags (Some ∅)) →
     CoerceForStorage order visit attrs !! ResourceTagsKey
     = Some (VString ""))
  ∧ CoerceForStorage order' visit'
      (CoerceForStorage order visit attrs)
    = CoerceForStorage order visit attrs.
Proof.
  intros Hr Hr' Hvisit.
  pose proof (fun k => CoerceForStorage_lookup order visit attrs k Hr)
    as Hl.
  split.
  { apply set_eq. intros k. rewrite !elem_of_dom, Hl.
    by rewrite fmap_is_Some. }
  split.
  { intros k Hk. rewrite Hl. unfold coerce_attr.
    destruct (String.eqb_spec k ResourceTagsKey); [done|].
    by destruct (attrs !! k). }
  split.
  { intros v Hv Hnt. rewrite Hl, Hv. simpl. unfold coerce_attr.
    rewrite String.eqb_refl. destruct v; try done. by destruct (Hnt m). }
  split.
  { intros t Hv. pose proof (Hvisit t) as Ht. unfold ranges in Ht.
    split.
    { rewrite Hl, Hv. simpl. unfold coerce_attr, range_tags.
      rewrite String.eqb_refl. by rewrite snoc_fmap. }
    split; [done|]. split; [by rewrite Ht|]. split.
    { intros resKey resValue Hk. apply list_elem_of_fmap.
      exists (resKey, resValue). split; [done|].
      rewrite Ht. by apply elem_of_map_to_list. }
    by rewrite Ht, length_map_to_list. }
  split.
  { intros Hv. rewrite Hl, Hv. simpl. unfold coerce_attr, range_tags.
    by rewrite String.eqb_refl. }
  split.
  { intros Hv. pose proof (Hvisit ∅) as Ht. unfold ranges in Ht.
    rewrite map_to_list_empty in Ht. apply Permutation_nil_r in Ht.
    rewrite Hl, Hv. simpl. unfold coerce_attr, range_tags.
    by rewrite String.eqb_refl, Ht. }
  apply map_eq. intros k.
  rewrite (CoerceForStorage_lookup order' visit' _ k Hr'), Hl.
  destruct (attrs !! k) as [v|]; [|done]. simpl. f_equal.
  unfold coerce_attr. destruct (String.eqb_spec k ResourceTagsKey); [|done].
  by destruct v.
Qed.

Lemma CoerceForStorage_tags_only_witness :
  CoerceForStorage (map_to_list (defined cfg1)) map_to_list (defined cfg1)
    !! ResourceTagsKey
  = Some (VString "owner=ops env=prod")
  ∧ dom (CoerceForStorage (map_to_list (defined cfg1)) map_to_list
           (defined cfg1))
    = dom (defined cfg1)
  ∧ CoerceForStorage [(ResourceTagsKey, VTags None)] map_to_list
      (<[ResourceTagsKey := VTags None]> ∅) !! ResourceTagsKey
    = Some (VString "").
Proof.
  destruct (CoerceForStorage_tags_only (map_to_list (defined cfg1))
              (map_to_list
                 (CoerceForStorage (map_to_list (defined cfg1)) map_to_list
                    (defined cfg1)))
              map_to_list (fun _ => []) (defined cfg1))
    as (Hdom & _ & _ & Htags & _); [by unfold ranges..|].
  destruct (CoerceForStorage_tags_only [(ResourceTagsKey, VTags None)]
              (map_to_list
                 (CoerceForStorage [(ResourceTagsKey, VTags None)]
                    map_to_list (<[ResourceTagsKey := VTags None]> ∅)))
              map_to_list (fun _ => [])
              (<[ResourceTagsKey := VTags None]> ∅))
    as (_ & _ & _ & _ & Hnil & _);
    [unfold ranges; by rewrite insert_empty, map_to_list_singleton
    |by unfold ranges..|].
  split.
  { destruct (Htags (<["owner" := "ops"]> (<["env" := "prod"]> ∅)))
      as [-> _]; [by vm_compute|by vm_compute]. }
  split; [exact Hdom|].
  apply Hnil. by vm_compute.
Defined.
